(** * tensorstore/internal/metrics/gauge.h

    A shallow embedding of the gauge metric of TensorStore: the two
    specialisations of [GaugeCell] (64-bit integer and double), the
    [Gauge] facade on top of the field-keyed cell store, and an
    interleaving model of the atomic operations the cells are built
    from. *)

From Stdlib Require Import ZArith Lia Sorted.
From Stdlib Require Import Floats.SpecFloat.
From stdpp Require Import gmap strings pretty list fin_maps.

Local Open Scope Z_scope.

#[local] Set Warnings "-clear-no-such-hyp".

(** ** [int64_t]

    Values are kept in [Z]; the wrap-around of the 64-bit
    two's-complement representation is written out. *)

Module Int64.

Definition min_value : Z := - 2 ^ 63.
Definition max_value : Z := 2 ^ 63 - 1.

Definition in_range (z : Z) : Prop := min_value <= z <= max_value.

Definition in_rangeb (z : Z) : bool := (min_value <=? z) && (z <=? max_value).

(** Reinterpretation of an integer modulo 2^64 as a signed 64-bit value. *)
Definition wrap (z : Z) : Z := (z + 2 ^ 63) mod 2 ^ 64 - 2 ^ 63.

(** [std::atomic<int64_t>::fetch_add]: the standard defines it on the
    two's-complement representation, without undefined results. *)
Definition add (a b : Z) : Z := wrap (a + b).

(** Unary minus on [int64_t]. At [min_value] the negation is not
    representable; the model follows the two's-complement instruction
    every supported target emits for it, which gives [min_value] back. *)
Definition neg (a : Z) : Z := wrap (- a).

End Int64.

(** ** [double]

    IEEE 754 binary64 values as the standard library's [spec_float],
    with round-to-nearest-even arithmetic. The payload of a NaN is not
    represented. *)

Module Double.

Definition prec : Z := 53.
Definition emax : Z := 1024.

Definition double : Type := spec_float.

Definition zero : double := S754_zero false.

(** [m * 2^e] rounded to binary64. *)
Definition of_scaled (m e : Z) : double := binary_normalize prec emax m e false.

Definition add (a b : double) : double := SFadd prec emax a b.

Definition opp (a : double) : double := SFopp a.

(** Conversion of an [int64_t] to [double]. *)
Definition of_int64 (z : Z) : double := of_scaled z 0.

(** Conversion of a [double] to [int64_t]: the fractional part is
    discarded; the conversion is undefined ([None]) when the truncated
    value is not representable, and for infinities and NaN. *)
Definition to_int64 (d : double) : option Z :=
  match d with
  | S754_zero _ => Some 0
  | S754_finite s m e =>
      let t := cond_Zopp s (Z.shiftl (Z.pos m) e) in
      if Int64.in_rangeb t then Some t else None
  | S754_infinity _ | S754_nan => None
  end.

#[global] Instance double_eq_dec : EqDecision double.
Proof. unfold double. solve_decision. Defined.

End Double.

Abbreviation double := Double.double.

(** ** The cells *)

(** [struct GaugeTag]. *)
Module GaugeTag.

Definition kTag : string := "gauge".

End GaugeTag.

(** The one data member of both specialisations,
    [std::atomic<T> value_]. *)
Record GaugeCell (T : Type) : Type := mkGaugeCell { value_ : T }.

Arguments mkGaugeCell {T} _.
Arguments value_ {T} _.

(** [template <> class GaugeCell<int64_t>]. *)
Module GaugeCell_int64.

Definition default : GaugeCell Z := {| value_ := 0 |}.

Definition IncrementBy (value : Z) (c : GaugeCell Z) : GaugeCell Z :=
  {| value_ := Int64.add (value_ c) value |}.

Definition DecrementBy (value : Z) (c : GaugeCell Z) : GaugeCell Z :=
  IncrementBy (Int64.neg value) c.

Definition Set_ (value : Z) (c : GaugeCell Z) : GaugeCell Z :=
  {| value_ := value |}.

Definition Get (c : GaugeCell Z) : Z := value_ c.

End GaugeCell_int64.

(** [template <> class GaugeCell<double>]. *)
Module GaugeCell_double.

Definition default : GaugeCell double := {| value_ := Double.zero |}.

(** The load and compare-exchange loop, run without interference: the
    exchange that succeeds installs [v + value] for the value [v] then
    held. The loop itself is [Atomic.double_step] below. *)
Definition IncrementBy (value : double) (c : GaugeCell double) : GaugeCell double :=
  {| value_ := Double.add (value_ c) value |}.

(** The parameter is an [int64_t] in this specialisation as well; the
    negated integer is converted back to [double] at the call of
    [IncrementBy]. *)
Definition DecrementBy (value : Z) (c : GaugeCell double) : GaugeCell double :=
  IncrementBy (Double.of_int64 (Int64.neg value)) c.

Definition Set_ (value : double) (c : GaugeCell double) : GaugeCell double :=
  {| value_ := value |}.

Definition Get (c : GaugeCell double) : double := value_ c.

End GaugeCell_double.

(** What the [Gauge] template needs from its [Cell] type: the members
    of the two specialisations above, and the two implicit conversions
    the facade's calls go through. *)
Class GaugeValue (T : Type) : Type := {
  Cell_default : GaugeCell T;
  Cell_IncrementBy : T -> GaugeCell T -> GaugeCell T;
  Cell_DecrementBy : Z -> GaugeCell T -> GaugeCell T;
  Cell_Set : T -> GaugeCell T -> GaugeCell T;
  Cell_Get : GaugeCell T -> T;
  (** the [int] literal of [Increment] at the parameter of
      [Cell::IncrementBy] *)
  of_int : Z -> T;
  (** a [value_type] argument at the [int64_t] parameter of
      [Cell::DecrementBy] *)
  to_int64_t : T -> option Z
}.

#[global] Instance GaugeValue_int64 : GaugeValue Z := {|
  Cell_default := GaugeCell_int64.default;
  Cell_IncrementBy := GaugeCell_int64.IncrementBy;
  Cell_DecrementBy := GaugeCell_int64.DecrementBy;
  Cell_Set := GaugeCell_int64.Set_;
  Cell_Get := GaugeCell_int64.Get;
  of_int := fun i => i;
  to_int64_t := fun v => Some v
|}.

#[global] Instance GaugeValue_double : GaugeValue double := {|
  Cell_default := GaugeCell_double.default;
  Cell_IncrementBy := GaugeCell_double.IncrementBy;
  Cell_DecrementBy := GaugeCell_double.DecrementBy;
  Cell_Set := GaugeCell_double.Set_;
  Cell_Get := GaugeCell_double.Get;
  of_int := Double.of_int64;
  to_int64_t := Double.to_int64
|}.

(** ** Fields and label tuples *)

(** The types a field may have. *)
Inductive FieldType : Type := TInt | TString | TBool.

(** A label: the value supplied for one field. *)
Inductive FieldValue : Type :=
  | FInt (i : Z)
  | FString (s : string)
  | FBool (b : bool).

#[global] Instance FieldValue_eq_dec : EqDecision FieldValue.
Proof. solve_decision. Defined.

#[global] Instance FieldValue_countable : Countable FieldValue.
Proof.
  refine (inj_countable'
    (fun v => match v with
              | FInt i => inl i
              | FString s => inr (inl s)
              | FBool b => inr (inr b)
              end)
    (fun x => match x with
              | inl i => FInt i
              | inr (inl s) => FString s
              | inr (inr b) => FBool b
              end) _).
  by intros [].
Defined.

Abbreviation Labels := (list FieldValue).

Definition has_type (ty : FieldType) (v : FieldValue) : bool :=
  match ty, v with
  | TInt, FInt _ | TString, FString _ | TBool, FBool _ => true
  | _, _ => false
  end.

(** A label tuple that the parameter list
    [typename FieldTraits<Fields>::param_type... labels] accepts. *)
Fixpoint well_typed (Fields : list FieldType) (labels : Labels) : bool :=
  match Fields, labels with
  | [], [] => true
  | ty :: Fields', v :: labels' => has_type ty v && well_typed Fields' labels'
  | _, _ => false
  end.

(** The rendering of integer and boolean labels by
    [tensorstore::StrCat] (util/str_cat.h), which is not among the
    sources: a parameter of the development. *)
Class Render : Type := {
  StrCat_int : Z -> string;
  StrCat_bool : bool -> string
}.

(** Modelled from the spec: [tensorstore::StrCat] (util/str_cat.h) is
    not among the sources; the spec has it as the generic conversion of
    a label value to its display string. A string label is its own
    text. *)
Definition StrCat `{Render} (item : FieldValue) : string :=
  match item with
  | FInt i => StrCat_int i
  | FString s => s
  | FBool b => StrCat_bool b
  end.

(** Modelled from the spec: [MetricMetadata] (metadata.h) is not among
    the sources; the spec has it as opaque descriptive data such as a
    human-readable description, attached at construction and read-only
    afterwards. *)
Record MetricMetadata : Type := { description : string }.

(** [CollectedMetric] (collect.h) is not among the sources; its shape
    is the one the spec gives to the snapshot. *)
Module CollectedMetric.

(** Modelled from the spec: [CollectedMetric::Metric] (collect.h) is
    not among the sources; the spec has an entry as an ordered list of
    per-field display strings with the numeric value. *)
Record Metric (T : Type) : Type := { fields : list string; value : T }.

Arguments Build_Metric {T} _ _.
Arguments fields {T} _.
Arguments value {T} _.

(** Modelled from the spec: [CollectedMetric] (collect.h) is not among
    the sources; the spec has it as the instrument tag, the metric
    name, the ordered field names, the metadata, and an ordered list of
    entries. *)
Record t (T : Type) : Type := {
  tag : string;
  metric_name : string;
  field_names : list string;
  metadata : MetricMetadata;
  gauges : list (Metric T)
}.

Arguments Build_t {T} _ _ _ _ _.
Arguments tag {T} _.
Arguments metric_name {T} _.
Arguments field_names {T} _.
Arguments metadata {T} _.
Arguments gauges {T} _.

End CollectedMetric.

(** [AbstractMetric<Cell, Fields...>] (metric_impl.h), the base of the
    facade, is not among the sources; it is the field-keyed store of the
    spec. *)
Module AbstractMetric.

(** Modelled from the spec: the data of [AbstractMetric]
    (metric_impl.h), which is not among the sources. The spec has the
    store keep the metric name, the field names and the metadata given
    at construction, and one cell per label tuple seen. *)
Record t (T : Type) : Type := {
  metric_name : string;
  metadata : MetricMetadata;
  field_names_vector : list string;
  cells : gmap Labels (GaugeCell T)
}.

Arguments Build_t {T} _ _ _ _.
Arguments metric_name {T} _.
Arguments metadata {T} _.
Arguments field_names_vector {T} _.
Arguments cells {T} _.

Section Store.
Context {T : Type} `{GaugeValue T}.

(** A change of the cells; the name, the metadata and the field names
    are read-only after construction. *)
Definition with_cells (f : gmap Labels (GaugeCell T) -> gmap Labels (GaugeCell T))
    (m : t T) : t T :=
  {| metric_name := metric_name m;
     metadata := metadata m;
     field_names_vector := field_names_vector m;
     cells := f (cells m) |}.

(** Modelled from the spec: [AbstractMetric::GetCell(labels...)]
    (metric_impl.h) is not among the sources. The spec has it give the
    cell bound to the label tuple, creating it on first use and never
    removing one. The result stands for the [Cell*] of the source: the
    cell as it is now, and the store that holds it. *)
Definition GetCell (labels : Labels) (m : t T) : GaugeCell T * t T :=
  match cells m !! labels with
  | Some cell => (cell, m)
  | None => (Cell_default, with_cells (insert labels Cell_default) m)
  end.

(** A member call through the [Cell*] that [GetCell] returned: the
    cell of the label tuple is replaced by its new state. *)
Definition StoreCell (labels : Labels) (cell : GaugeCell T) (m : t T) : t T :=
  with_cells (insert labels cell) m.

(** Modelled from the spec: [AbstractMetric::CollectCells(on_cell)]
    (metric_impl.h) is not among the sources. The spec has it run the
    callback once per existing (cell, label tuple) pair, in an order of
    the store's own; [acc] is what the callback captures by
    reference. *)
Definition CollectCells {A : Type} (on_cell : GaugeCell T -> Labels -> A -> A)
    (m : t T) (acc : A) : A :=
  foldl (fun acc kv => on_cell kv.2 kv.1 acc) acc (map_to_list (cells m)).

End Store.

End AbstractMetric.

(** ** The facade: [template <typename T, typename... Fields> class Gauge] *)

Module Gauge.

Record t (T : Type) : Type := { impl_ : AbstractMetric.t T }.

Arguments Build_t {T} _.
Arguments impl_ {T} _.

Section Facade.
Context {T : Type} `{GaugeValue T} `{Render}.

(** [Allocate]: the constructor hands the name, the metadata and the
    field names to [impl_]; no cell exists yet. [New] adds the
    registration, which does not touch the gauge. *)
Definition Allocate (metric_name : string) (field_names : list string)
    (metadata : MetricMetadata) : t T :=
  {| impl_ := {| AbstractMetric.metric_name := metric_name;
                 AbstractMetric.metadata := metadata;
                 AbstractMetric.field_names_vector := field_names;
                 AbstractMetric.cells := ∅ |} |}.

Definition tag (g : t T) : string := GaugeTag.kTag.
Definition metric_name (g : t T) : string := AbstractMetric.metric_name (impl_ g).
Definition field_names (g : t T) : list string :=
  AbstractMetric.field_names_vector (impl_ g).
Definition metadata (g : t T) : MetricMetadata := AbstractMetric.metadata (impl_ g).

(** [impl_.GetCell(labels...)->method(...)] for a method that returns
    nothing. *)
Definition at_cell (labels : Labels) (method : GaugeCell T -> GaugeCell T)
    (g : t T) : t T :=
  let '(cell, impl) := AbstractMetric.GetCell labels (impl_ g) in
  {| impl_ := AbstractMetric.StoreCell labels (method cell) impl |}.

Definition Increment (labels : Labels) (g : t T) : t T :=
  at_cell labels (Cell_IncrementBy (of_int 1)) g.

Definition IncrementBy (value : T) (labels : Labels) (g : t T) : t T :=
  at_cell labels (Cell_IncrementBy value) g.

Definition Decrement (labels : Labels) (g : t T) : t T :=
  at_cell labels (Cell_DecrementBy 1) g.

(** [value] is a [value_type]; the cell's parameter is an [int64_t]. *)
Definition DecrementBy (value : T) (labels : Labels) (g : t T) : option (t T) :=
  match to_int64_t value with
  | Some value' => Some (at_cell labels (Cell_DecrementBy value') g)
  | None => None
  end.

Definition Set_ (value : T) (labels : Labels) (g : t T) : t T :=
  at_cell labels (Cell_Set value) g.

(** [Get] is [const] on the facade, but [GetCell] still creates the
    cell of a label tuple seen for the first time. *)
Definition Get (labels : Labels) (g : t T) : T * t T :=
  let '(cell, impl) := AbstractMetric.GetCell labels (impl_ g) in
  (Cell_Get cell, {| impl_ := impl |}).

(** The entry the callback of [Collect] appends for one cell. *)
Definition collect_cell (cell : GaugeCell T) (fields : Labels)
    (result : CollectedMetric.t T) : CollectedMetric.t T :=
  {| CollectedMetric.tag := CollectedMetric.tag result;
     CollectedMetric.metric_name := CollectedMetric.metric_name result;
     CollectedMetric.field_names := CollectedMetric.field_names result;
     CollectedMetric.metadata := CollectedMetric.metadata result;
     CollectedMetric.gauges :=
       CollectedMetric.gauges result ++
       [ {| CollectedMetric.fields := map StrCat fields;
            CollectedMetric.value := Cell_Get cell |} ] |}.

Definition Collect (g : t T) : CollectedMetric.t T :=
  let result :=
    {| CollectedMetric.tag := GaugeTag.kTag;
       CollectedMetric.metric_name := AbstractMetric.metric_name (impl_ g);
       CollectedMetric.field_names := AbstractMetric.field_names_vector (impl_ g);
       CollectedMetric.metadata := AbstractMetric.metadata (impl_ g);
       CollectedMetric.gauges := [] |} in
  AbstractMetric.CollectCells collect_cell (impl_ g) result.

Definition CollectCells {A : Type} (on_cell : GaugeCell T -> Labels -> A -> A)
    (g : t T) (acc : A) : A :=
  AbstractMetric.CollectCells on_cell (impl_ g) acc.

(** The label tuples that have a cell. *)
Definition tuples (g : t T) : gset Labels := dom (AbstractMetric.cells (impl_ g)).

(** The cell of a label tuple, when it exists. *)
Definition cell_of (labels : Labels) (g : t T) : option (GaugeCell T) :=
  AbstractMetric.cells (impl_ g) !! labels.

(** The cell [GetCell] yields for a label tuple: the one that exists,
    or else a default-constructed one. *)
Definition current (labels : Labels) (g : t T) : GaugeCell T :=
  default Cell_default (cell_of labels g).

(** The entry of [Collect] for a cell. *)
Definition entry (labels : Labels) (cell : GaugeCell T) : CollectedMetric.Metric T :=
  {| CollectedMetric.fields := map StrCat labels;
     CollectedMetric.value := Cell_Get cell |}.

End Facade.

(** *** Sequences of calls *)

(** One call of a public operation. *)
Inductive Op (T : Type) : Type :=
  | OIncrement (labels : Labels)
  | OIncrementBy (value : T) (labels : Labels)
  | ODecrement (labels : Labels)
  | ODecrementBy (value : T) (labels : Labels)
  | OSet (value : T) (labels : Labels)
  | OGet (labels : Labels)
  | OCollect
  | OCollectCells.

Arguments OIncrement {T} _.
Arguments OIncrementBy {T} _ _.
Arguments ODecrement {T} _.
Arguments ODecrementBy {T} _ _.
Arguments OSet {T} _ _.
Arguments OGet {T} _.
Arguments OCollect {T}.
Arguments OCollectCells {T}.

(** What a call hands back to its caller; for [CollectCells], the
    arguments of the successive calls of the callback. *)
Inductive Result (T : Type) : Type :=
  | RVoid
  | RValue (v : T)
  | RCollected (m : CollectedMetric.t T)
  | RCells (visited : list (GaugeCell T * Labels)).

Arguments RVoid {T}.
Arguments RValue {T} _.
Arguments RCollected {T} _.
Arguments RCells {T} _.

Section Calls.
Context {T : Type} `{GaugeValue T} `{Render}.

(** The label tuple a call names, if it names one. *)
Definition op_labels (op : Op T) : option Labels :=
  match op with
  | OIncrement labels | OIncrementBy _ labels | ODecrement labels
  | ODecrementBy _ labels | OSet _ labels | OGet labels => Some labels
  | OCollect | OCollectCells => None
  end.

(** A call is undefined ([None]) only where a conversion of its
    argument is. *)
Definition exec (op : Op T) (g : t T) : option (Result T * t T) :=
  match op with
  | OIncrement labels => Some (RVoid, Increment labels g)
  | OIncrementBy value labels => Some (RVoid, IncrementBy value labels g)
  | ODecrement labels => Some (RVoid, Decrement labels g)
  | ODecrementBy value labels =>
      match DecrementBy value labels g with
      | Some g' => Some (RVoid, g')
      | None => None
      end
  | OSet value labels => Some (RVoid, Set_ value labels g)
  | OGet labels => let '(v, g') := Get labels g in Some (RValue v, g')
  | OCollect => Some (RCollected (Collect g), g)
  | OCollectCells =>
      Some (RCells (CollectCells (fun cell fields acc => acc ++ [(cell, fields)]) g []), g)
  end.

Fixpoint run (ops : list (Op T)) (g : t T) : option (t T) :=
  match ops with
  | [] => Some g
  | op :: ops' =>
      match exec op g with
      | Some (_, g') => run ops' g'
      | None => None
      end
  end.

(** The effect of a call on the cell it reaches. *)
Definition cell_exec (op : Op T) (cell : GaugeCell T) : option (GaugeCell T) :=
  match op with
  | OIncrement _ => Some (Cell_IncrementBy (of_int 1) cell)
  | OIncrementBy value _ => Some (Cell_IncrementBy value cell)
  | ODecrement _ => Some (Cell_DecrementBy 1 cell)
  | ODecrementBy value _ =>
      match to_int64_t value with
      | Some value' => Some (Cell_DecrementBy value' cell)
      | None => None
      end
  | OSet value _ => Some (Cell_Set value cell)
  | OGet _ | OCollect | OCollectCells => Some cell
  end.

(** The calls of a sequence that name the label tuple [labels], applied
    in order to one cell. *)
Fixpoint cell_run (labels : Labels) (ops : list (Op T)) (cell : GaugeCell T)
    : option (GaugeCell T) :=
  match ops with
  | [] => Some cell
  | op :: ops' =>
      if decide (op_labels op = Some labels) then
        match cell_exec op cell with
        | Some cell' => cell_run labels ops' cell'
        | None => None
        end
      else cell_run labels ops' cell
  end.

(** The label tuples named by the calls of a sequence. *)
Definition touched (ops : list (Op T)) : gset Labels :=
  list_to_set (omap op_labels ops).

(** Every call of the sequence passes a label tuple of the declared
    field types. *)
Definition ops_well_typed (Fields : list FieldType) (ops : list (Op T)) : Prop :=
  Forall (fun op => match op_labels op with
                    | Some labels => well_typed Fields labels = true
                    | None => True
                    end) ops.

End Calls.

End Gauge.

(** ** The cells under concurrent callers

    Every access of the member functions to [value_] is one operation
    of [std::atomic] with the default [memory_order_seq_cst]; the
    threads of a program are therefore modelled as an interleaving of
    these operations, one per step. *)

Module Atomic.

(** *** The operations of [std::atomic] the cells use

    Each takes the value held and gives the value held afterwards. *)

Definition load {T : Type} (held : T) : T := held.

Definition store {T : Type} (desired held : T) : T := desired.

(** [fetch_add] on [std::atomic<int64_t>]. *)
Definition fetch_add (arg held : Z) : Z := Int64.add held arg.

(** [compare_exchange_weak(expected, desired)] on [std::atomic<double>]:
    it may fail although the value held is the expected one
    ([spurious]); on failure [expected] receives the value held. The
    result is the flag, the new [expected] and the value held
    afterwards. *)
Definition compare_exchange_weak (spurious : bool) (expected desired held : double)
    : bool * double * double :=
  if bool_decide (held = expected) && negb spurious
  then (true, expected, desired)
  else (false, held, held).

(** *** Calls and their steps *)

(** A call of a member function of a cell. *)
Inductive Call (T : Type) : Type :=
  | CIncrementBy (value : T)
  | CDecrementBy (value : Z)
  | CSet (value : T)
  | CGet.

Arguments CIncrementBy {T} _.
Arguments CDecrementBy {T} _.
Arguments CSet {T} _.
Arguments CGet {T}.

(** After one atomic operation a call is still running, with its local
    variables, or has returned. *)
Inductive Outcome (L T : Type) : Type :=
  | Running (locals : L)
  | Returned (result : option T).

Arguments Running {L T} _.
Arguments Returned {L T} _.

(** The body of the member functions of one specialisation, one atomic
    operation at a time. *)
Record Impl (T : Type) : Type := {
  locals : Type;
  entry : locals;
  step : bool -> Call T -> locals -> GaugeCell T -> Outcome locals T * GaugeCell T
}.

Arguments locals {T} _.
Arguments entry {T} _.
Arguments step {T} _ _ _ _ _.

(** [GaugeCell<int64_t>]: every member function is a single atomic
    operation. *)
Definition int64_step (spurious : bool) (c : Call Z) (l : unit) (cell : GaugeCell Z)
    : Outcome unit Z * GaugeCell Z :=
  match c with
  | CIncrementBy value =>
      (Returned None, {| value_ := fetch_add value (value_ cell) |})
  | CDecrementBy value =>
      (Returned None, {| value_ := fetch_add (Int64.neg value) (value_ cell) |})
  | CSet value => (Returned None, {| value_ := store value (value_ cell) |})
  | CGet => (Returned (Some (load (value_ cell))), cell)
  end.

Definition int64_impl : Impl Z :=
  {| locals := unit; entry := tt; step := int64_step |}.

(** [GaugeCell<double>::IncrementBy]: the local [v] is not yet set
    before the load; afterwards each step is one turn of the loop. *)
Definition double_IncrementBy_step (spurious : bool) (value : double)
    (v : option double) (cell : GaugeCell double)
    : Outcome (option double) double * GaugeCell double :=
  match v with
  | None => (Running (Some (load (value_ cell))), cell)
  | Some v =>
      let '(ok, v', held) :=
        compare_exchange_weak spurious v (Double.add v value) (value_ cell) in
      if ok then (Returned None, {| value_ := held |})
      else (Running (Some v'), {| value_ := held |})
  end.

Definition double_step (spurious : bool) (c : Call double) (v : option double)
    (cell : GaugeCell double) : Outcome (option double) double * GaugeCell double :=
  match c with
  | CIncrementBy value => double_IncrementBy_step spurious value v cell
  | CDecrementBy value =>
      double_IncrementBy_step spurious (Double.of_int64 (Int64.neg value)) v cell
  | CSet value => (Returned None, {| value_ := store value (value_ cell) |})
  | CGet => (Returned (Some (load (value_ cell))), cell)
  end.

Definition double_impl : Impl double :=
  {| locals := option double; entry := None; step := double_step |}.

(** *** Threads *)

(** A thread: the call in progress with its local variables, and the
    calls it will make afterwards. *)
Record Thread (T L : Type) : Type := {
  running : option (Call T * L);
  pending : list (Call T)
}.

Arguments Build_Thread {T L} _ _.
Arguments running {T L} _.
Arguments pending {T L} _.

(** The calls a thread has not returned from yet, in program order. *)
Definition remaining {T L : Type} (th : Thread T L) : list (Call T) :=
  match running th with
  | Some (c, _) => c :: pending th
  | None => pending th
  end.

(** A call that returned: the thread, the call and what it returned. *)
Record Event (T : Type) : Type := {
  ev_thread : nat;
  ev_call : Call T;
  ev_result : option T
}.

Arguments Build_Event {T} _ _ _.
Arguments ev_thread {T} _.
Arguments ev_call {T} _.
Arguments ev_result {T} _.

Record Pool (T L : Type) : Type := {
  cell : GaugeCell T;
  threads : list (Thread T L)
}.

Arguments Build_Pool {T L} _ _.
Arguments cell {T L} _.
Arguments threads {T L} _.

Section Interleaving.
Context {T : Type} (impl : Impl T).

(** One atomic operation of thread [i]; a thread with nothing left to
    do, or an index that names no thread, leaves the pool as it is. *)
Definition pool_step (i : nat) (spurious : bool) (p : Pool T (locals impl))
    : Pool T (locals impl) * list (Event T) :=
  match threads p !! i with
  | None => (p, [])
  | Some th =>
      let next :=
        match running th with
        | Some (c, l) => Some (c, l, pending th)
        | None =>
            match pending th with
            | c :: rest => Some (c, entry impl, rest)
            | [] => None
            end
        end in
      match next with
      | None => (p, [])
      | Some (c, l, rest) =>
          match step impl spurious c l (cell p) with
          | (Running l', cell') =>
              ({| cell := cell';
                  threads := <[i := {| running := Some (c, l'); pending := rest |}]>
                               (threads p) |}, [])
          | (Returned r, cell') =>
              ({| cell := cell';
                  threads := <[i := {| running := None; pending := rest |}]>
                               (threads p) |},
               [ {| ev_thread := i; ev_call := c; ev_result := r |} ])
          end
      end
  end.

(** A schedule names, step by step, the thread that moves and whether
    a compare-exchange of that step fails spuriously. The result is the
    pool reached and the calls that returned, in the order they did. *)
Fixpoint pool_run (sched : list (nat * bool)) (p : Pool T (locals impl))
    : Pool T (locals impl) * list (Event T) :=
  match sched with
  | [] => (p, [])
  | (i, spurious) :: sched' =>
      let '(p', h) := pool_step i spurious p in
      let '(p'', h') := pool_run sched' p' in
      (p'', h ++ h')
  end.

Definition all_done (p : Pool T (locals impl)) : Prop :=
  Forall (fun th => remaining th = []) (threads p).

(** The number of calls the threads have not returned from yet. *)
Definition work (p : Pool T (locals impl)) : nat :=
  sum_list (map (fun th => length (remaining th)) (threads p)).

End Interleaving.

Section Sequential.
Context {T : Type} `{GaugeValue T} `{EqDecision T}.

(** What a call does, and returns, when it runs alone: the member
    functions as modelled above. *)
Definition call_seq (c : Call T) (cell : GaugeCell T) : GaugeCell T * option T :=
  match c with
  | CIncrementBy value => (Cell_IncrementBy value cell, None)
  | CDecrementBy value => (Cell_DecrementBy value cell, None)
  | CSet value => (Cell_Set value cell, None)
  | CGet => (cell, Some (Cell_Get cell))
  end.

(** The calls of a history made one after the other on one cell; [None]
    when a call of the history returned anything else than it returns
    here. *)
Fixpoint replay (h : list (Event T)) (cell : GaugeCell T) : option (GaugeCell T) :=
  match h with
  | [] => Some cell
  | e :: h' =>
      let '(cell', r) := call_seq (ev_call e) cell in
      if decide (r = ev_result e) then replay h' cell' else None
  end.

(** The steps of a schedule that are steps of thread [i]. *)
Definition turns (i : nat) (sched : list (nat * bool)) : nat :=
  length (filter (fun s => s.1 = i) sched).

(** A step of a call that does not return leaves the value held as it
    is; the step that returns does, in that one step, what the call
    does when it runs alone. *)
Definition atomic_steps (impl : Impl T) : Prop :=
  forall (spurious : bool) (c : Call T) (l : locals impl) (held : GaugeCell T),
    match step impl spurious c l held with
    | (Running _, held') => held' = held
    | (Returned r, held') => (held', r) = call_seq c held
    end.

(** The calls of thread [i] in a history. *)
Definition calls_of (i : nat) (h : list (Event T)) : list (Call T) :=
  map ev_call (filter (fun e => ev_thread e = i) h).

(** An implementation is linearizable when, whatever the schedule, the
    calls that returned, taken in the order in which they returned (so
    a call that returned before another began comes first), are a
    sequential run of the cell that ends in the value now held and in
    which every call returns what it returned; each thread's returned
    calls are, in order, the first calls of its program, and a call
    still in progress has had no effect. *)
Definition linearizable (impl : Impl T) : Prop :=
  forall (sched : list (nat * bool)) (p : Pool T (locals impl)),
    let '(p', h) := pool_run impl sched p in
    replay h (cell p) = Some (cell p') /\
    length (threads p') = length (threads p) /\
    forall i th th',
      threads p !! i = Some th -> threads p' !! i = Some th' ->
      remaining th = calls_of i h ++ remaining th'.

End Sequential.

(** [T] threads, each with [N] calls of [IncrementBy(1)] ahead, on a
    cell that holds zero. *)
Definition incrementers (T N : nat) : Pool Z unit :=
  {| cell := GaugeCell_int64.default;
     threads := replicate T {| running := None;
                               pending := replicate N (CIncrementBy 1) |} |}.

(** A pool of the integer cell whose threads only have calls of
    [IncrementBy(1)] ahead. *)
Definition incrementing (p : Pool Z unit) : Prop :=
  Forall (fun th => Forall (fun c => c = CIncrementBy 1) (remaining th)) (threads p).

(** The schedule that lets each of [T] threads in turn take [N] steps. *)
Definition one_by_one (T N : nat) : list (nat * bool) :=
  flat_map (fun i => replicate N (i, false)) (seq 0 T).

End Atomic.

(** ** Values and gauges of the scenarios *)

Module Scenario.

Definition d3_5 : double := Double.of_scaled 7 (-1).
Definition dm3_5 : double := Double.of_scaled (-7) (-1).
Definition d2_5 : double := Double.of_scaled 5 (-1).
Definition dm2_5 : double := Double.of_scaled (-5) (-1).
Definition dm2 : double := Double.of_scaled (-2) 0.
Definition d0_5 : double := Double.of_scaled 1 (-1).

Definition meta : MetricMetadata := {| description := "A gauge" |}.

(** A rendering of integer and boolean labels, for the examples. *)
Definition plain : Render :=
  {| StrCat_int := fun i => pretty i;
     StrCat_bool := fun b => if b then "1" else "0" |}.

(** [Gauge<double>::Allocate("/my/cpu/temperature", meta)]: no fields. *)
Definition temperature : Gauge.t double :=
  Gauge.Allocate "/my/cpu/temperature" [] meta.

(** An integer gauge with one string-valued field. *)
Definition requests : Gauge.t Z :=
  Gauge.Allocate "/my/requests" ["method"] meta.

Definition a : Labels := [FString "a"].
Definition b : Labels := [FString "b"].

(** [Set(10, "a"); IncrementBy(5, "a"); Set(3, "b")]. *)
Definition calls : list (Gauge.Op Z) :=
  [Gauge.OSet 10 a; Gauge.OIncrementBy 5 a; Gauge.OSet 3 b].

(** The gauge after these calls. *)
Definition served : Gauge.t Z :=
  Gauge.Set_ 3 b (Gauge.IncrementBy 5 a (Gauge.Set_ 10 a requests)).

(** A label tuple no call has named. *)
Definition c : Labels := [FString "c"].

(** Two threads with two calls of [IncrementBy(1)] each, and a schedule
    that interleaves them. *)
Definition two_by_two : Atomic.Pool Z unit := Atomic.incrementers 2 2.

Definition interleaved : list (nat * bool) :=
  [(0, false); (1, false); (1, false); (0, false)]%nat.

End Scenario.

(** ** Sequences of calls on the integer gauge *)

Module Gauge_int64.

(** The arguments of a call are values of [int64_t]. *)
Definition op_in_range (op : Gauge.Op Z) : Prop :=
  match op with
  | Gauge.OIncrementBy value _ | Gauge.ODecrementBy value _ | Gauge.OSet value _ =>
      Int64.in_range value
  | _ => True
  end.

(** What a call adds to the cell it names; [Set] is not an addition. *)
Definition delta (op : Gauge.Op Z) : Z :=
  match op with
  | Gauge.OIncrement _ => 1
  | Gauge.OIncrementBy value _ => value
  | Gauge.ODecrement _ => - 1
  | Gauge.ODecrementBy value _ => - value
  | _ => 0
  end.

(** The sum of what the calls of a sequence add to the cell of
    [labels]. *)
Fixpoint net (labels : Labels) (ops : list (Gauge.Op Z)) : Z :=
  match ops with
  | [] => 0
  | op :: ops' =>
      (if decide (Gauge.op_labels op = Some labels) then delta op else 0) + net labels ops'
  end.

(** A call of [Set] on the label tuple [labels]. *)
Definition sets (labels : Labels) (op : Gauge.Op Z) : Prop :=
  match op with
  | Gauge.OSet _ labels' => labels' = labels
  | _ => False
  end.

End Gauge_int64.

(** ** Sequences of calls on the floating-point gauge *)

Module Gauge_double.

(** A call of [Set] on the label tuple [labels]. *)
Definition sets (labels : Labels) (op : Gauge.Op double) : Prop :=
  match op with
  | Gauge.OSet _ labels' => labels' = labels
  | _ => False
  end.

(** Zero of either sign, or a finite number. *)
Definition finite (d : double) : Prop :=
  match d with
  | S754_zero _ | S754_finite _ _ _ => True
  | S754_infinity _ | S754_nan => False
  end.

Definition is_zero (d : double) : Prop :=
  match d with
  | S754_zero _ => True
  | _ => False
  end.

End Gauge_double.

(** ** Pools of the integer cell that only add *)

Module Adders.







(** Thread [i] is between calls and its next call is
    [IncrementBy(value)]. *)
Definition about_to_increment {L : Type} (i : nat) (value : double)
    (rest : list (Atomic.Call double)) (p : Atomic.Pool double L) : Prop :=
  Atomic.threads p !! i =
    Some {| Atomic.running := None; Atomic.pending := Atomic.CIncrementBy value :: rest |}.

(** Threads that each have a list of arguments to pass, one after the
    other, to [IncrementBy] on a floating-point cell. *)
Definition double_incrementers (c0 : GaugeCell double) (args : list (list double))
    : Atomic.Pool double (option double) :=
  {| Atomic.cell := c0;
     Atomic.threads :=
       map (fun xs => {| Atomic.running := None;
                         Atomic.pending := map Atomic.CIncrementBy xs |}) args |}.

(** All the calls the threads of a pool have not returned from. *)
Definition all_remaining {T L : Type} (p : Atomic.Pool T L) : list (Atomic.Call T) :=
  concat (map Atomic.remaining (Atomic.threads p)).

End Adders.

(** ** Further examples *)

Module Examples.

(** Calls on two label tuples of the integer gauge, none of them a
    [Set], and the same calls in another order. *)
Definition steps : list (Gauge.Op Z) :=
  [Gauge.OIncrementBy 5 Scenario.a; Gauge.ODecrement Scenario.a; Gauge.OIncrement Scenario.b].

Definition steps' : list (Gauge.Op Z) :=
  [Gauge.ODecrement Scenario.a; Gauge.OIncrement Scenario.b; Gauge.OIncrementBy 5 Scenario.a].

(** 0.5 *)
Definition half_mantissa : positive := 4503599627370496.
Definition half_exponent : Z := -53.





(** A thread about to call [IncrementBy(3.5)] on a floating-point cell
    next to a thread about to call [Set(2.5)]. *)
Definition contended : Atomic.Pool double (option double) :=
  {| Atomic.cell := GaugeCell_double.default;
     Atomic.threads :=
       [ {| Atomic.running := None; Atomic.pending := [Atomic.CIncrementBy Scenario.d3_5] |};
         {| Atomic.running := None; Atomic.pending := [Atomic.CSet Scenario.d2_5] |} ] |}.

(** Two threads that increment a floating-point cell holding 0.0, and
    a schedule in which the second thread's exchange fails once because
    the first thread got in between. *)
Definition racing : Atomic.Pool double (option double) :=
  Adders.double_incrementers GaugeCell_double.default [[Scenario.d3_5]; [Scenario.d2_5]].

Definition racing_schedule : list (nat * bool) :=
  [(1, false); (0, false); (0, false); (1, false); (1, false)]%nat.

End Examples.

(** * Properties *)

(** ** 64-bit arithmetic *)

Lemma in_rangeb_spec z : Int64.in_rangeb z = true <-> Int64.in_range z.
Proof.
  unfold Int64.in_rangeb, Int64.in_range.
  rewrite andb_true_iff, !Z.leb_le. tauto.
Qed.

Lemma wrap_in_range z : Int64.in_range (Int64.wrap z).
Proof.
  unfold Int64.in_range, Int64.wrap, Int64.min_value, Int64.max_value.
  pose proof (Z.mod_pos_bound (z + 2 ^ 63) (2 ^ 64)). lia.
Qed.

Lemma wrap_small z : Int64.in_range z -> Int64.wrap z = z.
Proof.
  unfold Int64.in_range, Int64.wrap, Int64.min_value, Int64.max_value.
  intros Hz. rewrite Z.mod_small by lia. lia.
Qed.

Lemma wrap_congr a b : (a - b) mod 2 ^ 64 = 0 -> Int64.wrap a = Int64.wrap b.
Proof.
  unfold Int64.wrap. intros Hab. f_equal.
  apply Z.mod_divide in Hab; [|lia]. destruct Hab as [k Hk].
  replace (a + 2 ^ 63) with (b + 2 ^ 63 + k * 2 ^ 64) by lia.
  apply Z.mod_add. lia.
Qed.

Lemma wrap_eqm z : (Int64.wrap z - z) mod 2 ^ 64 = 0.
Proof.
  unfold Int64.wrap. apply Z.mod_divide; [lia|].
  exists (- ((z + 2 ^ 63) / 2 ^ 64)).
  pose proof (Z.div_mod (z + 2 ^ 63) (2 ^ 64)). lia.
Qed.

Lemma wrap_add_l a b : Int64.wrap (Int64.wrap a + b) = Int64.wrap (a + b).
Proof.
  apply wrap_congr.
  replace (Int64.wrap a + b - (a + b)) with (Int64.wrap a - a) by lia.
  apply wrap_eqm.
Qed.

Lemma wrap_add_r a b : Int64.wrap (a + Int64.wrap b) = Int64.wrap (a + b).
Proof. rewrite (Z.add_comm a (Int64.wrap b)), wrap_add_l. f_equal. lia. Qed.

Lemma add_neg a b : Int64.add a (Int64.neg b) = Int64.wrap (a - b).
Proof. unfold Int64.add, Int64.neg. rewrite wrap_add_r. f_equal. Qed.

Lemma add_add_neg a b :
  Int64.in_range a -> Int64.add (Int64.add a b) (Int64.neg b) = a.
Proof.
  intros Ha. unfold Int64.add, Int64.neg. rewrite wrap_add_r, wrap_add_l.
  replace (a + b + - b) with a by lia. by apply wrap_small.
Qed.

(** ** The store and the facade *)

Section GaugeFacts.
Context {T : Type} `{GaugeValue T} `{Render}.

Implicit Types (g : Gauge.t T) (labels : Labels) (cell : GaugeCell T).

Lemma GetCell_fst labels g :
  (AbstractMetric.GetCell labels (Gauge.impl_ g)).1 = Gauge.current labels g.
Proof.
  unfold AbstractMetric.GetCell, Gauge.current, Gauge.cell_of.
  by destruct (AbstractMetric.cells (Gauge.impl_ g) !! labels).
Qed.

Lemma GetCell_cells labels g :
  AbstractMetric.cells (AbstractMetric.GetCell labels (Gauge.impl_ g)).2 =
  <[labels := Gauge.current labels g]> (AbstractMetric.cells (Gauge.impl_ g)).
Proof.
  unfold AbstractMetric.GetCell, Gauge.current, Gauge.cell_of.
  destruct (AbstractMetric.cells (Gauge.impl_ g) !! labels) eqn:E; simpl.
  - by rewrite insert_id.
  - done.
Qed.

Lemma GetCell_constants labels g :
  let impl := (AbstractMetric.GetCell labels (Gauge.impl_ g)).2 in
  AbstractMetric.metric_name impl = Gauge.metric_name g /\
  AbstractMetric.field_names_vector impl = Gauge.field_names g /\
  AbstractMetric.metadata impl = Gauge.metadata g.
Proof.
  unfold AbstractMetric.GetCell.
  by destruct (AbstractMetric.cells (Gauge.impl_ g) !! labels).
Qed.

Lemma at_cell_cells labels method g :
  AbstractMetric.cells (Gauge.impl_ (Gauge.at_cell labels method g)) =
  <[labels := method (Gauge.current labels g)]> (AbstractMetric.cells (Gauge.impl_ g)).
Proof.
  unfold Gauge.at_cell.
  pose proof (GetCell_fst labels g) as Hc. pose proof (GetCell_cells labels g) as Hm.
  destruct (AbstractMetric.GetCell labels (Gauge.impl_ g)) as [cell impl].
  simpl in *. rewrite Hm, Hc. apply insert_insert_eq.
Qed.

Lemma at_cell_constants labels method g :
  Gauge.metric_name (Gauge.at_cell labels method g) = Gauge.metric_name g /\
  Gauge.field_names (Gauge.at_cell labels method g) = Gauge.field_names g /\
  Gauge.metadata (Gauge.at_cell labels method g) = Gauge.metadata g.
Proof.
  unfold Gauge.at_cell. pose proof (GetCell_constants labels g) as Hk.
  destruct (AbstractMetric.GetCell labels (Gauge.impl_ g)) as [cell impl].
  exact Hk.
Qed.

Lemma cell_of_at_cell labels method g :
  Gauge.cell_of labels (Gauge.at_cell labels method g) =
  Some (method (Gauge.current labels g)).
Proof. unfold Gauge.cell_of. rewrite at_cell_cells. apply lookup_insert_eq. Qed.

Lemma cell_of_at_cell_ne labels labels' method g :
  labels <> labels' ->
  Gauge.cell_of labels' (Gauge.at_cell labels method g) = Gauge.cell_of labels' g.
Proof. intros Hne. unfold Gauge.cell_of. rewrite at_cell_cells. by apply lookup_insert_ne. Qed.

Lemma tuples_at_cell labels method g :
  Gauge.tuples (Gauge.at_cell labels method g) = {[labels]} ∪ Gauge.tuples g.
Proof. unfold Gauge.tuples. rewrite at_cell_cells. apply dom_insert_L. Qed.

Lemma Get_value labels g : (Gauge.Get labels g).1 = Cell_Get (Gauge.current labels g).
Proof.
  unfold Gauge.Get. pose proof (GetCell_fst labels g) as Hc.
  destruct (AbstractMetric.GetCell labels (Gauge.impl_ g)) as [cell impl].
  simpl in *. by rewrite Hc.
Qed.

Lemma Get_cells labels g :
  AbstractMetric.cells (Gauge.impl_ (Gauge.Get labels g).2) =
  <[labels := Gauge.current labels g]> (AbstractMetric.cells (Gauge.impl_ g)).
Proof.
  unfold Gauge.Get. pose proof (GetCell_cells labels g) as Hm.
  by destruct (AbstractMetric.GetCell labels (Gauge.impl_ g)) as [cell impl].
Qed.

Lemma Get_constants labels g :
  Gauge.metric_name (Gauge.Get labels g).2 = Gauge.metric_name g /\
  Gauge.field_names (Gauge.Get labels g).2 = Gauge.field_names g /\
  Gauge.metadata (Gauge.Get labels g).2 = Gauge.metadata g.
Proof.
  unfold Gauge.Get. pose proof (GetCell_constants labels g) as Hk.
  by destruct (AbstractMetric.GetCell labels (Gauge.impl_ g)) as [cell impl].
Qed.

Lemma cell_of_Get labels g :
  Gauge.cell_of labels (Gauge.Get labels g).2 = Some (Gauge.current labels g).
Proof. unfold Gauge.cell_of. rewrite Get_cells. apply lookup_insert_eq. Qed.

Lemma cell_of_Get_ne labels labels' g :
  labels <> labels' -> Gauge.cell_of labels' (Gauge.Get labels g).2 = Gauge.cell_of labels' g.
Proof. intros Hne. unfold Gauge.cell_of. rewrite Get_cells. by apply lookup_insert_ne. Qed.

Lemma tuples_Get labels g :
  Gauge.tuples (Gauge.Get labels g).2 = {[labels]} ∪ Gauge.tuples g.
Proof. unfold Gauge.tuples. rewrite Get_cells. apply dom_insert_L. Qed.

Lemma current_existing labels g cell :
  Gauge.cell_of labels g = Some cell -> Gauge.current labels g = cell.
Proof. unfold Gauge.current. by intros ->. Qed.

Lemma current_fresh labels g : labels ∉ Gauge.tuples g -> Gauge.current labels g = Cell_default.
Proof.
  unfold Gauge.current, Gauge.cell_of, Gauge.tuples. intros Hn.
  apply not_elem_of_dom in Hn. by rewrite Hn.
Qed.

End GaugeFacts.

(** ** What [Collect] gathers *)

Section CollectFacts.
Context {T : Type} `{GaugeValue T} `{Render}.

Implicit Types (g : Gauge.t T) (labels : Labels) (cell : GaugeCell T).

Lemma collect_cells_fold (l : list (Labels * GaugeCell T)) (r : CollectedMetric.t T) :
  let r' := foldl (fun acc kv => Gauge.collect_cell kv.2 kv.1 acc) r l in
  CollectedMetric.tag r' = CollectedMetric.tag r /\
  CollectedMetric.metric_name r' = CollectedMetric.metric_name r /\
  CollectedMetric.field_names r' = CollectedMetric.field_names r /\
  CollectedMetric.metadata r' = CollectedMetric.metadata r /\
  CollectedMetric.gauges r' =
    CollectedMetric.gauges r ++ map (fun kv => Gauge.entry kv.1 kv.2) l.
Proof.
  revert r. induction l as [|kv l IH]; intros r; simpl.
  - by rewrite app_nil_r.
  - destruct (IH (Gauge.collect_cell kv.2 kv.1 r)) as (Ht & Hn & Hf & Hm & Hg).
    simpl in *. rewrite Ht, Hn, Hf, Hm, Hg, <- app_assoc. done.
Qed.

Lemma Collect_gauges g :
  CollectedMetric.gauges (Gauge.Collect g) =
  map (fun kv => Gauge.entry kv.1 kv.2) (map_to_list (AbstractMetric.cells (Gauge.impl_ g))).
Proof.
  unfold Gauge.Collect, AbstractMetric.CollectCells.
  match goal with |- context [foldl _ ?r ?l] => destruct (collect_cells_fold l r) as (_ & _ & _ & _ & Hg) end.
  by rewrite Hg.
Qed.

Lemma Collect_header g :
  CollectedMetric.tag (Gauge.Collect g) = GaugeTag.kTag /\
  CollectedMetric.metric_name (Gauge.Collect g) = Gauge.metric_name g /\
  CollectedMetric.field_names (Gauge.Collect g) = Gauge.field_names g /\
  CollectedMetric.metadata (Gauge.Collect g) = Gauge.metadata g.
Proof.
  unfold Gauge.Collect, AbstractMetric.CollectCells.
  match goal with |- context [foldl _ ?r ?l] => destruct (collect_cells_fold l r) as (Ht & Hn & Hf & Hm & _) end.
  by rewrite Ht, Hn, Hf, Hm.
Qed.

Lemma Collect_entry g labels cell :
  Gauge.cell_of labels g = Some cell ->
  Gauge.entry labels cell ∈ CollectedMetric.gauges (Gauge.Collect g).
Proof.
  intros Hc. rewrite Collect_gauges. apply list_elem_of_fmap.
  exists (labels, cell). split; [done|]. by apply elem_of_map_to_list.
Qed.

Lemma Collect_entry_inv g e :
  e ∈ CollectedMetric.gauges (Gauge.Collect g) ->
  exists labels cell, Gauge.cell_of labels g = Some cell /\ e = Gauge.entry labels cell.
Proof.
  rewrite Collect_gauges. intros He. apply list_elem_of_fmap in He.
  destruct He as ([labels cell] & -> & Hin). apply elem_of_map_to_list in Hin.
  by exists labels, cell.
Qed.

Lemma Collect_length g :
  length (CollectedMetric.gauges (Gauge.Collect g)) = size (Gauge.tuples g).
Proof.
  rewrite Collect_gauges, length_map. unfold Gauge.tuples.
  by rewrite size_dom, length_map_to_list.
Qed.

Lemma map_to_list_two (m : gmap Labels (GaugeCell T)) (A B : Labels) (cA cB : GaugeCell T) :
  A <> B -> dom m = {[A; B]} -> m !! A = Some cA -> m !! B = Some cB ->
  map_to_list m ≡ₚ [(A, cA); (B, cB)].
Proof.
  intros Hne Hdom HA HB.
  assert (m = <[A := cA]> (<[B := cB]> ∅)) as ->.
  { apply map_eq. intros k. destruct (decide (k = A)) as [->|HkA].
    - by rewrite lookup_insert_eq.
    - rewrite lookup_insert_ne by done. destruct (decide (k = B)) as [->|HkB].
      + by rewrite lookup_insert_eq.
      + rewrite lookup_insert_ne, lookup_empty by done.
        apply not_elem_of_dom. rewrite Hdom. set_solver. }
  rewrite map_to_list_insert.
  - by rewrite map_to_list_insert, map_to_list_empty by apply lookup_empty.
  - by rewrite lookup_insert_ne.
Qed.

End CollectFacts.

(** ** Calls and sequences of calls *)

Section CallFacts.
Context {T : Type} `{GaugeValue T} `{Render}.

Implicit Types (g : Gauge.t T) (labels : Labels) (cell : GaugeCell T).

(** A call made through [at_cell], once [exec] is unfolded. *)
Ltac through_at_cell :=
  simplify_eq; eexists; split; [done|];
  split; [apply at_cell_cells|apply at_cell_constants].

(** A call that names a label tuple acts on the cell of that tuple, as
    [cell_exec] says, and on nothing else. *)
Lemma exec_labelled (op : Gauge.Op T) labels g r g' :
  Gauge.op_labels op = Some labels -> Gauge.exec op g = Some (r, g') ->
  exists cell',
    Gauge.cell_exec op (Gauge.current labels g) = Some cell' /\
    AbstractMetric.cells (Gauge.impl_ g') =
      <[labels := cell']> (AbstractMetric.cells (Gauge.impl_ g)) /\
    Gauge.metric_name g' = Gauge.metric_name g /\
    Gauge.field_names g' = Gauge.field_names g /\
    Gauge.metadata g' = Gauge.metadata g.
Proof.
  intros Hl He.
  destruct op as [l|v l|l|v l|v l|l| |]; simpl in Hl; simplify_eq; simpl in He.
  - through_at_cell.
  - through_at_cell.
  - through_at_cell.
  - unfold Gauge.DecrementBy in He. simpl.
    destruct (to_int64_t v) as [v'|]; [|done]. through_at_cell.
  - through_at_cell.
  - pose proof (Get_cells labels g) as Hm. pose proof (Get_constants labels g) as Hk.
    destruct (Gauge.Get labels g) as [v g1]. simplify_eq. simpl in *.
    eexists. split; [done|]. by split.
Qed.

(** [Collect] and [CollectCells] leave the gauge as it is. *)
Lemma exec_unlabelled (op : Gauge.Op T) g r g' :
  Gauge.op_labels op = None -> Gauge.exec op g = Some (r, g') -> g' = g.
Proof.
  intros Hl He. destruct op; simpl in Hl; simplify_eq; simpl in He; by simplify_eq.
Qed.

(** A call is undefined exactly where its effect on a cell is. *)
Lemma exec_defined (op : Gauge.Op T) g cell :
  is_Some (Gauge.exec op g) <-> is_Some (Gauge.cell_exec op cell).
Proof.
  destruct op as [l|v l|l|v l|v l|l| |]; simpl; try (split; intros _; eauto; fail).
  - unfold Gauge.DecrementBy. destruct (to_int64_t v); simpl; split; intros [? ?]; eauto; done.
  - destruct (Gauge.Get l g). split; intros _; eauto.
Qed.

Lemma cell_run_untouched labels (ops : list (Gauge.Op T)) cell :
  labels ∉ Gauge.touched ops -> Gauge.cell_run labels ops cell = Some cell.
Proof.
  unfold Gauge.touched. induction ops as [|op ops IH]; intros Hn; simpl; [done|].
  simpl in Hn. destruct (Gauge.op_labels op) as [l|] eqn:El.
  - rewrite decide_False; [apply IH; set_solver|].
    intros [= ->]. set_solver.
  - rewrite decide_False by done. by apply IH.
Qed.

(** After a sequence of calls, the cell of a label tuple is what the
    calls that name the tuple make, in order, of the cell it had. *)
Lemma run_current (ops : list (Gauge.Op T)) g g' labels :
  Gauge.run ops g = Some g' ->
  Gauge.cell_run labels ops (Gauge.current labels g) = Some (Gauge.current labels g').
Proof.
  revert g. induction ops as [|op ops IH]; intros g Hr; simpl in *; [by simplify_eq|].
  destruct (Gauge.exec op g) as [[r g1]|] eqn:He; [|done].
  destruct (Gauge.op_labels op) as [l|] eqn:El.
  - destruct (exec_labelled op l g r g1 El He) as (c1 & Hc & Hm & _).
    destruct (decide (Some l = Some labels)) as [[= ->]|Hne].
    + rewrite Hc. rewrite <- (IH g1 Hr). f_equal.
      unfold Gauge.current, Gauge.cell_of. by rewrite Hm, lookup_insert_eq.
    + rewrite <- (IH g1 Hr). f_equal.
      unfold Gauge.current, Gauge.cell_of. rewrite Hm, lookup_insert_ne; [done|congruence].
  - rewrite decide_False by done.
    rewrite (exec_unlabelled op g r g1 El He) in Hr. by apply IH.
Qed.

Lemma run_tuples (ops : list (Gauge.Op T)) g g' :
  Gauge.run ops g = Some g' -> Gauge.tuples g' = Gauge.tuples g ∪ Gauge.touched ops.
Proof.
  unfold Gauge.touched.
  revert g. induction ops as [|op ops IH]; intros g Hr; simpl in *.
  - simplify_eq. set_solver.
  - destruct (Gauge.exec op g) as [[r g1]|] eqn:He; [|done].
    rewrite (IH g1 Hr). destruct (Gauge.op_labels op) as [l|] eqn:El.
    + destruct (exec_labelled op l g r g1 El He) as (c1 & _ & Hm & _).
      unfold Gauge.tuples at 1. rewrite Hm, dom_insert_L. simpl. fold (Gauge.tuples g).
      set_solver.
    + by rewrite (exec_unlabelled op g r g1 El He).
Qed.

Lemma run_constants (ops : list (Gauge.Op T)) g g' :
  Gauge.run ops g = Some g' ->
  Gauge.metric_name g' = Gauge.metric_name g /\
  Gauge.field_names g' = Gauge.field_names g /\
  Gauge.metadata g' = Gauge.metadata g.
Proof.
  revert g. induction ops as [|op ops IH]; intros g Hr; simpl in *; [by simplify_eq|].
  destruct (Gauge.exec op g) as [[r g1]|] eqn:He; [|done].
  destruct (IH g1 Hr) as (Hn & Hf & Hm). rewrite Hn, Hf, Hm.
  destruct (Gauge.op_labels op) as [l|] eqn:El.
  - by destruct (exec_labelled op l g r g1 El He) as (c1 & _ & _ & Hk).
  - by rewrite (exec_unlabelled op g r g1 El He).
Qed.

Lemma cell_of_current labels g :
  labels ∈ Gauge.tuples g -> Gauge.cell_of labels g = Some (Gauge.current labels g).
Proof.
  unfold Gauge.tuples, Gauge.current, Gauge.cell_of. intros Hin.
  apply elem_of_dom in Hin. by destruct Hin as [c ->].
Qed.

Lemma tuples_Allocate name names md : Gauge.tuples (Gauge.Allocate (T:=T) name names md) = ∅.
Proof. unfold Gauge.tuples. simpl. apply dom_empty_L. Qed.

Lemma current_Allocate name names md labels :
  Gauge.current labels (Gauge.Allocate (T:=T) name names md) = Cell_default.
Proof. apply current_fresh. rewrite tuples_Allocate. set_solver. Qed.

(** The label tuples of the cells have the declared field types, as
    long as the calls pass such tuples. *)
Lemma run_well_typed Fields (ops : list (Gauge.Op T)) g g' :
  Gauge.ops_well_typed Fields ops -> Gauge.run ops g = Some g' ->
  (forall l, l ∈ Gauge.tuples g -> well_typed Fields l = true) ->
  forall l, l ∈ Gauge.tuples g' -> well_typed Fields l = true.
Proof.
  intros Hwt Hr Hg l. rewrite (run_tuples ops g g' Hr). intros [Hl|Hl]%elem_of_union.
  - by apply Hg.
  - unfold Gauge.touched in Hl. apply elem_of_list_to_set, list_elem_of_omap in Hl.
    destruct Hl as (op & Hop & El). unfold Gauge.ops_well_typed in Hwt.
    rewrite Forall_forall in Hwt. specialize (Hwt op Hop). by rewrite El in Hwt.
Qed.

Lemma well_typed_length Fields labels :
  well_typed Fields labels = true -> length labels = length Fields.
Proof.
  revert labels. induction Fields as [|ty Fields IH]; intros [|v labels]; simpl; try done.
  intros [_ Hw]%andb_true_iff. f_equal. by apply IH.
Qed.

End CallFacts.

(** ** The cells, one caller at a time *)

Lemma int64_IncrementBy_value (value : Z) (c : GaugeCell Z) :
  GaugeCell_int64.Get (GaugeCell_int64.IncrementBy value c) =
  Int64.wrap (GaugeCell_int64.Get c + value).
Proof. reflexivity. Qed.

Lemma int64_DecrementBy_value (value : Z) (c : GaugeCell Z) :
  GaugeCell_int64.Get (GaugeCell_int64.DecrementBy value c) =
  Int64.wrap (GaugeCell_int64.Get c - value).
Proof. unfold GaugeCell_int64.DecrementBy. rewrite int64_IncrementBy_value. apply add_neg. Qed.

(** On the integer gauge [DecrementBy(v)] is [IncrementBy(-v)], on the
    cell and through the facade. *)
Lemma int64_DecrementBy_IncrementBy (v : Z) (labels : Labels) (c : GaugeCell Z)
    (g : Gauge.t Z) :
  GaugeCell_int64.DecrementBy v c = GaugeCell_int64.IncrementBy (Int64.neg v) c /\
  Gauge.DecrementBy v labels g = Some (Gauge.IncrementBy (Int64.neg v) labels g).
Proof. split; reflexivity. Qed.

(** On the integer gauge [IncrementBy(x)] then [DecrementBy(x)] gives
    back the value the cell had. *)
Lemma int64_IncrementBy_DecrementBy (x : Z) (labels : Labels) (g : Gauge.t Z) :
  Int64.in_range (Gauge.Get labels g).1 ->
  exists g',
    Gauge.DecrementBy x labels (Gauge.IncrementBy x labels g) = Some g' /\
    (Gauge.Get labels g').1 = (Gauge.Get labels g).1.
Proof.
  intros Hp. eexists. split; [reflexivity|].
  rewrite !Get_value in *. unfold Gauge.IncrementBy.
  rewrite (current_existing _ _ _ (cell_of_at_cell _ _ _)).
  rewrite (current_existing _ _ _ (cell_of_at_cell _ _ _)).
  simpl. by apply add_add_neg.
Qed.

(** C10. On the 64-bit integer cell, [IncrementBy] and [DecrementBy]
    are total and wrap around: from a cell that holds [p],
    [IncrementBy(v)] leaves [p + v], and [DecrementBy(v)] leaves
    [p - v], each taken modulo 2^64 and read as a signed 64-bit
    integer, which is what [Get] then returns; the same holds through
    the facade, where [DecrementBy] is defined for every argument. *)
Theorem int64_IncrementBy_DecrementBy_wrap (p v : Z) (labels : Labels) (g : Gauge.t Z) :
  let c := {| value_ := p |} in
  GaugeCell_int64.Get (GaugeCell_int64.IncrementBy v c) = (p + v + 2 ^ 63) mod 2 ^ 64 - 2 ^ 63 /\
  GaugeCell_int64.Get (GaugeCell_int64.DecrementBy v c) = (p - v + 2 ^ 63) mod 2 ^ 64 - 2 ^ 63 /\
  Int64.in_range (GaugeCell_int64.Get (GaugeCell_int64.IncrementBy v c)) /\
  Int64.in_range (GaugeCell_int64.Get (GaugeCell_int64.DecrementBy v c)) /\
  (Gauge.Get labels (Gauge.IncrementBy v labels g)).1 =
    Int64.wrap ((Gauge.Get labels g).1 + v) /\
  exists g', Gauge.DecrementBy v labels g = Some g' /\
    (Gauge.Get labels g').1 = Int64.wrap ((Gauge.Get labels g).1 - v).
Proof.
  intros c. split; [reflexivity|]. split; [apply int64_DecrementBy_value|].
  split; [apply wrap_in_range|]. split; [apply wrap_in_range|]. split.
  - rewrite !Get_value. unfold Gauge.IncrementBy.
    by rewrite (current_existing _ _ _ (cell_of_at_cell _ _ _)).
  - eexists. split; [reflexivity|]. rewrite !Get_value.
    rewrite (current_existing _ _ _ (cell_of_at_cell _ _ _)).
    apply int64_DecrementBy_value.
Qed.

(** C4. [Set(v, labels)] followed by [Get(labels)] returns [v], for
    both value types, on the cell and through the facade. *)
Theorem Set_Get_roundtrip :
  (forall (v : Z) (c : GaugeCell Z),
     GaugeCell_int64.Get (GaugeCell_int64.Set_ v c) = v) /\
  (forall (v : double) (c : GaugeCell double),
     GaugeCell_double.Get (GaugeCell_double.Set_ v c) = v) /\
  (forall (v : Z) (labels : Labels) (g : Gauge.t Z),
     (Gauge.Get labels (Gauge.Set_ v labels g)).1 = v) /\
  (forall (v : double) (labels : Labels) (g : Gauge.t double),
     (Gauge.Get labels (Gauge.Set_ v labels g)).1 = v).
Proof.
  split; [done|]. split; [done|]. split; intros v labels g.
  - rewrite Get_value. unfold Gauge.Set_.
    by rewrite (current_existing _ _ _ (cell_of_at_cell _ _ _)).
  - rewrite Get_value. unfold Gauge.Set_.
    by rewrite (current_existing _ _ _ (cell_of_at_cell _ _ _)).
Qed.

(** On the floating-point gauge the argument of [DecrementBy] reaches
    the cell as the integer it truncates to. *)
Lemma double_DecrementBy_int64 (v : double) (z : Z) (labels : Labels) (g : Gauge.t double) :
  Double.to_int64 v = Some z ->
  Gauge.DecrementBy v labels g =
  Some (Gauge.IncrementBy (Double.of_int64 (Int64.neg z)) labels g).
Proof. intros Hz. unfold Gauge.DecrementBy. simpl. by rewrite Hz. Qed.

(** C1. On the floating-point gauge [DecrementBy(v)] is not
    [IncrementBy(-v)]: the cell takes the argument as an [int64_t], so
    that [DecrementBy(2.5)] on the fresh gauge leaves -2.0 where
    [IncrementBy(-2.5)] leaves -2.5. *)
Theorem double_DecrementBy_truncates :
  (g ← Gauge.DecrementBy Scenario.d2_5 [] Scenario.temperature;
   Some (Gauge.Get [] g).1) = Some Scenario.dm2 /\
  (Gauge.Get [] (Gauge.IncrementBy (Double.opp Scenario.d2_5) [] Scenario.temperature)).1
    = Scenario.dm2_5 /\
  Scenario.dm2 <> Scenario.dm2_5.
Proof. split; [|split]; by vm_compute. Qed.

(** C5. On the floating-point gauge [IncrementBy(x)] then
    [DecrementBy(x)] does not give back the value the cell had, for the
    same reason: from 0.0 and with [x] = 2.5 the cell is left at 0.5.
    The scenario of the spec, which uses [IncrementBy] twice, does end
    at 0.0. *)
Theorem double_IncrementBy_DecrementBy_off :
  (g ← Gauge.DecrementBy Scenario.d2_5 []
         (Gauge.IncrementBy Scenario.d2_5 [] Scenario.temperature);
   Some (Gauge.Get [] g).1) = Some Scenario.d0_5 /\
  (Gauge.Get [] Scenario.temperature).1 = Double.zero /\
  (Gauge.Get []
     (Gauge.IncrementBy Scenario.dm3_5 []
        (Gauge.IncrementBy Scenario.d3_5 [] Scenario.temperature))).1 = Double.zero.
Proof. split; [|split]; by vm_compute. Qed.

(** ** The gauge, one caller at a time *)

Section GaugeProperties.
Context {T : Type} `{GaugeValue T} `{Render}.

Implicit Types (g : Gauge.t T) (labels : Labels) (cell : GaugeCell T).

(** C9. For label tuples [A <> B], [Set(v, A)] does not change what
    [Get(B)] returns, nor the cell of [B]; and no call that names [A]
    changes the cell of [B]. *)
Theorem Set_isolated (A B : Labels) (v : T) g :
  A <> B ->
  (Gauge.Get B (Gauge.Set_ v A g)).1 = (Gauge.Get B g).1 /\
  Gauge.cell_of B (Gauge.Set_ v A g) = Gauge.cell_of B g /\
  forall (op : Gauge.Op T) r g',
    Gauge.op_labels op = Some A -> Gauge.exec op g = Some (r, g') ->
    Gauge.cell_of B g' = Gauge.cell_of B g.
Proof.
  intros Hne.
  assert (Gauge.cell_of B (Gauge.Set_ v A g) = Gauge.cell_of B g) as Hc
    by by apply cell_of_at_cell_ne.
  split; [|split; [done|]].
  - rewrite !Get_value. unfold Gauge.current. by rewrite Hc.
  - intros op r g' El He.
    destruct (exec_labelled op A g r g' El He) as (c' & _ & Hm & _).
    unfold Gauge.cell_of. rewrite Hm. by apply lookup_insert_ne.
Qed.

(** C6. On a gauge made by [Allocate] and used by any sequence of calls
    that never names [labels], [Get(labels)] returns the value of a
    default-constructed cell, which is 0 for the integer cell and 0.0
    for the floating-point one; the label tuple had no cell before the
    call and has one after it, and [Collect] then has one entry more,
    among them the entry of [labels] with that value. *)
Theorem Get_lazy_zero (name : string) (names : list string) (md : MetricMetadata)
    (ops : list (Gauge.Op T)) g labels :
  labels ∉ Gauge.touched ops ->
  Gauge.run ops (Gauge.Allocate name names md) = Some g ->
  (Gauge.Get labels g).1 = Cell_Get Cell_default /\
  (labels ∉ Gauge.tuples g) /\
  Gauge.tuples (Gauge.Get labels g).2 = ({[labels]} ∪ Gauge.tuples g) /\
  Gauge.entry labels Cell_default ∈ CollectedMetric.gauges (Gauge.Collect (Gauge.Get labels g).2) /\
  length (CollectedMetric.gauges (Gauge.Collect (Gauge.Get labels g).2)) =
    S (length (CollectedMetric.gauges (Gauge.Collect g))) /\
  Cell_Get (Cell_default (T:=Z)) = 0 /\
  Cell_Get (Cell_default (T:=double)) = Double.zero.
Proof.
  intros Hn Hr.
  assert (labels ∉ Gauge.tuples g) as Hfresh.
  { rewrite (run_tuples _ _ _ Hr), tuples_Allocate. set_solver. }
  pose proof (current_fresh labels g Hfresh) as Hcur.
  split; [by rewrite Get_value, Hcur|]. split; [done|].
  split; [apply tuples_Get|]. split; [|split; [|done]].
  - apply Collect_entry. by rewrite cell_of_Get, Hcur.
  - rewrite !Collect_length, tuples_Get. rewrite size_union by set_solver.
    by rewrite size_singleton.
Qed.

(** C7. A call of a public operation leaves the set of label tuples
    that have a cell as it is, or adds one tuple to it; and a tuple
    that has a cell still has it, and an entry in [Collect], after any
    further sequence of calls. The only call that is not defined is a
    [DecrementBy] whose argument has no conversion to [int64_t]. *)
Theorem cells_only_grow :
  (forall (op : Gauge.Op T) g,
     Gauge.exec op g = None ->
     exists value labels, op = Gauge.ODecrementBy value labels /\ to_int64_t value = None) /\
  (forall (op : Gauge.Op T) g r g',
     Gauge.exec op g = Some (r, g') ->
     Gauge.tuples g ⊆ Gauge.tuples g' /\
     (Gauge.tuples g' = Gauge.tuples g \/
      exists l, (l ∉ Gauge.tuples g) /\ Gauge.tuples g' = ({[l]} ∪ Gauge.tuples g))) /\
  (forall (ops : list (Gauge.Op T)) g g' labels,
     labels ∈ Gauge.tuples g -> Gauge.run ops g = Some g' ->
     labels ∈ Gauge.tuples g' /\
     exists cell, Gauge.cell_of labels g' = Some cell /\
       Gauge.entry labels cell ∈ CollectedMetric.gauges (Gauge.Collect g')).
Proof.
  split; [|split].
  - intros op g He. destruct op as [l|v l|l|v l|v l|l| |]; simpl in He; try done.
    + unfold Gauge.DecrementBy in He. exists v, l. split; [done|].
      by destruct (to_int64_t v).
    + by destruct (Gauge.Get l g).
  - intros op g r g' He. destruct (Gauge.op_labels op) as [l|] eqn:El.
    + destruct (exec_labelled op l g r g' El He) as (c' & _ & Hm & _).
      assert (Gauge.tuples g' = {[l]} ∪ Gauge.tuples g) as Ht.
      { unfold Gauge.tuples. rewrite Hm. apply dom_insert_L. }
      split; [set_solver|]. destruct (decide (l ∈ Gauge.tuples g)).
      * left. set_solver.
      * right. by exists l.
    + rewrite (exec_unlabelled op g r g' El He). split; [done|by left].
  - intros ops g g' labels Hin Hr.
    assert (labels ∈ Gauge.tuples g') as Hin'.
    { rewrite (run_tuples _ _ _ Hr). set_solver. }
    split; [done|]. exists (Gauge.current labels g').
    pose proof (cell_of_current labels g' Hin') as Hc. split; [done|].
    by apply Collect_entry.
Qed.

(** C8. On a gauge made by [Allocate] with one name per field and used
    by calls that pass label tuples of the declared field types,
    [Collect] returns the tag "gauge", the name, the field names and
    the metadata given to [Allocate], and one entry per cell: the
    entries are those of the cells of the store, each with the
    renderings of its labels in order, one per field, and the value the
    cell holds. *)
Theorem Collect_snapshot (Fields : list FieldType) (name : string) (names : list string)
    (md : MetricMetadata) (ops : list (Gauge.Op T)) g :
  length names = length Fields ->
  Gauge.ops_well_typed Fields ops ->
  Gauge.run ops (Gauge.Allocate name names md) = Some g ->
  let m := Gauge.Collect g in
  CollectedMetric.tag m = "gauge" /\
  CollectedMetric.metric_name m = name /\
  CollectedMetric.field_names m = names /\
  CollectedMetric.metadata m = md /\
  length (CollectedMetric.gauges m) = size (Gauge.tuples g) /\
  (forall labels cell, Gauge.cell_of labels g = Some cell ->
     {| CollectedMetric.fields := map StrCat labels;
        CollectedMetric.value := Cell_Get cell |} ∈ CollectedMetric.gauges m) /\
  (forall e, e ∈ CollectedMetric.gauges m ->
     length (CollectedMetric.fields e) = length names /\
     exists labels cell, Gauge.cell_of labels g = Some cell /\
       CollectedMetric.fields e = map StrCat labels /\
       CollectedMetric.value e = Cell_Get cell).
Proof.
  intros Hlen Hwt Hr m. subst m.
  destruct (Collect_header g) as (Ht & Hn & Hf & Hm).
  destruct (run_constants _ _ _ Hr) as (Hn' & Hf' & Hm').
  split; [by rewrite Ht|]. split; [by rewrite Hn, Hn'|].
  split; [by rewrite Hf, Hf'|]. split; [by rewrite Hm, Hm'|].
  split; [apply Collect_length|]. split.
  - intros labels cell Hc. by apply (Collect_entry g labels cell).
  - intros e He. destruct (Collect_entry_inv g e He) as (labels & cell & Hc & ->).
    split; [|by exists labels, cell]. simpl. rewrite length_map, Hlen.
    apply well_typed_length.
    apply (run_well_typed Fields ops _ g Hwt Hr).
    + intros l. rewrite tuples_Allocate. set_solver.
    + unfold Gauge.tuples. apply elem_of_dom. by eexists.
Qed.

(** C3. After a sequence of calls on a gauge made by [Allocate] that
    name the label tuples [A] and [B], and no other, [Collect] has two
    entries, up to their order: the one of [A] and the one of [B], each
    with the value that the calls naming its tuple leave, in order, in
    a default-constructed cell. *)
Theorem Collect_two_tuples (A B : Labels) (name : string) (names : list string)
    (md : MetricMetadata) (ops : list (Gauge.Op T)) g :
  A <> B ->
  Gauge.touched ops = {[A; B]} ->
  Gauge.run ops (Gauge.Allocate name names md) = Some g ->
  exists cA cB,
    Gauge.cell_run A ops Cell_default = Some cA /\
    Gauge.cell_run B ops Cell_default = Some cB /\
    CollectedMetric.gauges (Gauge.Collect g) ≡ₚ
      [ {| CollectedMetric.fields := map StrCat A; CollectedMetric.value := Cell_Get cA |};
        {| CollectedMetric.fields := map StrCat B; CollectedMetric.value := Cell_Get cB |} ].
Proof.
  intros Hne Ht Hr.
  exists (Gauge.current A g), (Gauge.current B g).
  pose proof (run_current ops _ g A Hr) as HA.
  pose proof (run_current ops _ g B Hr) as HB.
  rewrite current_Allocate in HA, HB. split; [done|]. split; [done|].
  assert (Gauge.tuples g = {[A; B]}) as Hdom.
  { rewrite (run_tuples _ _ _ Hr), tuples_Allocate, Ht. set_solver. }
  rewrite Collect_gauges.
  rewrite (map_to_list_two _ A B (Gauge.current A g) (Gauge.current B g)); try done.
  - apply cell_of_current. rewrite Hdom. set_solver.
  - apply cell_of_current. rewrite Hdom. set_solver.
Qed.

End GaugeProperties.

(** *** The scenario of the spec *)

Lemma Scenario_run : Gauge.run (H0:=Scenario.plain) Scenario.calls Scenario.requests = Some Scenario.served.
Proof. reflexivity. Qed.

Lemma Set_isolated_witness :
  Scenario.a <> Scenario.b /\
  (Gauge.Get Scenario.b (Gauge.Set_ 7 Scenario.a Scenario.served)).1 =
    (Gauge.Get Scenario.b Scenario.served).1 /\
  (Gauge.Get Scenario.b Scenario.served).1 = 3.
Proof.
  assert (Scenario.a <> Scenario.b) as Hne by discriminate.
  split; [exact Hne|]. split; [|reflexivity].
  exact (proj1 (@Set_isolated Z _ Scenario.plain Scenario.a Scenario.b 7 Scenario.served Hne)).
Defined.

Lemma Get_lazy_zero_witness :
  (Scenario.c ∉ Gauge.touched Scenario.calls) /\
  (Gauge.Get Scenario.c Scenario.served).1 = 0 /\
  {| CollectedMetric.fields := ["c"]; CollectedMetric.value := 0 |}
    ∈ CollectedMetric.gauges
        (Gauge.Collect (H0:=Scenario.plain) (Gauge.Get Scenario.c Scenario.served).2).
Proof.
  assert (Scenario.c ∉ Gauge.touched Scenario.calls) as Hn.
  { apply (bool_decide_unpack _). by vm_compute. }
  split; [exact Hn|].
  destruct (@Get_lazy_zero Z _ Scenario.plain "/my/requests" ["method"] Scenario.meta
              Scenario.calls Scenario.served Scenario.c Hn eq_refl)
    as (Hv & _ & _ & He & _).
  split; [exact Hv|exact He].
Defined.

Lemma cells_only_grow_witness :
  Gauge.tuples Scenario.requests ⊆ Gauge.tuples (Gauge.Set_ 10 Scenario.a Scenario.requests) /\
  (Gauge.tuples (Gauge.Set_ 10 Scenario.a Scenario.requests) = Gauge.tuples Scenario.requests \/
   exists l, (l ∉ Gauge.tuples Scenario.requests) /\
     Gauge.tuples (Gauge.Set_ 10 Scenario.a Scenario.requests) =
       {[l]} ∪ Gauge.tuples Scenario.requests).
Proof.
  exact (proj1 (proj2 (@cells_only_grow Z _ Scenario.plain)) (Gauge.OSet 10 Scenario.a)
           Scenario.requests Gauge.RVoid _ eq_refl).
Defined.

Lemma Collect_snapshot_witness :
  Gauge.ops_well_typed [TString] Scenario.calls /\
  CollectedMetric.tag (Gauge.Collect (H0:=Scenario.plain) Scenario.served) = "gauge" /\
  CollectedMetric.metric_name (Gauge.Collect (H0:=Scenario.plain) Scenario.served)
    = "/my/requests" /\
  CollectedMetric.field_names (Gauge.Collect (H0:=Scenario.plain) Scenario.served)
    = ["method"] /\
  CollectedMetric.metadata (Gauge.Collect (H0:=Scenario.plain) Scenario.served)
    = Scenario.meta /\
  length (CollectedMetric.gauges (Gauge.Collect (H0:=Scenario.plain) Scenario.served))
    = 2%nat.
Proof.
  assert (Gauge.ops_well_typed [TString] Scenario.calls) as Hwt.
  { unfold Gauge.ops_well_typed, Scenario.calls. repeat constructor. }
  split; [exact Hwt|].
  destruct (@Collect_snapshot Z _ Scenario.plain [TString] "/my/requests" ["method"]
              Scenario.meta Scenario.calls Scenario.served eq_refl Hwt eq_refl)
    as (Ht & Hn & Hf & Hm & Hl & _).
  cbv zeta. split; [exact Ht|]. split; [exact Hn|]. split; [exact Hf|].
  split; [exact Hm|]. rewrite Hl. by vm_compute.
Defined.

Lemma Collect_two_tuples_witness :
  Gauge.run (H0:=Scenario.plain) Scenario.calls Scenario.requests = Some Scenario.served /\
  CollectedMetric.gauges (Gauge.Collect (H0:=Scenario.plain) Scenario.served) ≡ₚ
    [ {| CollectedMetric.fields := ["a"]; CollectedMetric.value := 15 |};
      {| CollectedMetric.fields := ["b"]; CollectedMetric.value := 3 |} ].
Proof.
  split; [reflexivity|].
  assert (Scenario.a <> Scenario.b) as Hne by discriminate.
  assert (Gauge.touched Scenario.calls = {[Scenario.a; Scenario.b]}) as Ht by by vm_compute.
  destruct (@Collect_two_tuples Z _ Scenario.plain Scenario.a Scenario.b "/my/requests"
              ["method"] Scenario.meta Scenario.calls Scenario.served Hne Ht eq_refl)
    as (cA & cB & HA & HB & Hp).
  vm_compute in HA, HB. injection HA as <-. injection HB as <-. exact Hp.
Defined.

(** ** The cells under concurrent callers *)

Lemma int64_atomic_steps : Atomic.atomic_steps Atomic.int64_impl.
Proof. intros spurious c l held. destruct c; reflexivity. Qed.

Lemma double_atomic_steps : Atomic.atomic_steps Atomic.double_impl.
Proof.
  assert (forall spurious value v (held : GaugeCell double),
    match Atomic.double_IncrementBy_step spurious value v held with
    | (Atomic.Running _, held') => held' = held
    | (Atomic.Returned r, held') => (held', r) = (GaugeCell_double.IncrementBy value held, None)
    end) as Hinc.
  { intros spurious value [v|] [x]; simpl; [|done].
    unfold Atomic.compare_exchange_weak.
    destruct (bool_decide (x = v)) eqn:E, spurious; simpl; try done.
    apply bool_decide_eq_true in E. by subst. }
  intros spurious c l held. destruct c as [value|value|value|]; simpl.
  - apply Hinc.
  - apply Hinc.
  - done.
  - done.
Qed.

Section Linearization.
Context {T : Type} `{GaugeValue T} `{EqDecision T}.
Variable impl : Atomic.Impl T.
Hypothesis Hatomic : Atomic.atomic_steps impl.

Implicit Types (p : Atomic.Pool T (Atomic.locals impl)) (h : list (Atomic.Event T)).

Lemma replay_app h h' (x : GaugeCell T) :
  Atomic.replay (h ++ h') x = Atomic.replay h x ≫= Atomic.replay h'.
Proof.
  revert x. induction h as [|e h IH]; intros x; simpl; [done|].
  destruct (Atomic.call_seq (Atomic.ev_call e) x) as [x' r].
  by destruct (decide (r = Atomic.ev_result e)).
Qed.

Lemma calls_of_app i h h' :
  Atomic.calls_of i (h ++ h') = Atomic.calls_of i h ++ Atomic.calls_of i h'.
Proof. unfold Atomic.calls_of. by rewrite filter_app, map_app. Qed.

Lemma pool_step_linear i spurious p :
  let '(p', h) := Atomic.pool_step impl i spurious p in
  Atomic.replay h (Atomic.cell p) = Some (Atomic.cell p') /\
  length (Atomic.threads p') = length (Atomic.threads p) /\
  forall j th th',
    Atomic.threads p !! j = Some th -> Atomic.threads p' !! j = Some th' ->
    Atomic.remaining th = Atomic.calls_of j h ++ Atomic.remaining th'.
Proof.
  unfold Atomic.pool_step.
  destruct (Atomic.threads p !! i) as [th|] eqn:Ei.
  2:{ split; [done|]. split; [done|]. intros j th th' ? ?. by simplify_eq. }
  set (next := match Atomic.running th with
               | Some (c, l) => Some (c, l, Atomic.pending th)
               | None => match Atomic.pending th with
                         | c :: rest => Some (c, Atomic.entry impl, rest)
                         | [] => None
                         end
               end).
  assert (match next with
          | Some (c, _, rest) => Atomic.remaining th = c :: rest
          | None => True
          end) as Hnext.
  { unfold next, Atomic.remaining.
    destruct (Atomic.running th) as [[c l]|]; [done|]. by destruct (Atomic.pending th). }
  destruct next as [[[c l] rest]|].
  2:{ split; [done|]. split; [done|]. intros j th1 th' ? ?. by simplify_eq. }
  pose proof (Hatomic spurious c l (Atomic.cell p)) as Hs.
  destruct (Atomic.step impl spurious c l (Atomic.cell p)) as [[l'|r] x']; simpl.
  - subst x'. split; [done|]. split; [by rewrite length_insert|].
    intros j th1 th' Hj Hj'. destruct (decide (i = j)) as [->|Hne].
    + rewrite list_lookup_insert_eq in Hj' by by eapply lookup_lt_Some.
      simplify_eq. by rewrite Hnext.
    + rewrite list_lookup_insert_ne in Hj' by done. by simplify_eq.
  - rewrite <- Hs. rewrite decide_True by done.
    split; [done|]. split; [by rewrite length_insert|].
    intros j th1 th' Hj Hj'. unfold Atomic.calls_of.
    destruct (decide (i = j)) as [->|Hne].
    + rewrite list_lookup_insert_eq in Hj' by by eapply lookup_lt_Some.
      simplify_eq. rewrite Hnext. rewrite filter_cons_True by done. done.
    + rewrite list_lookup_insert_ne in Hj' by done. simplify_eq.
      rewrite filter_cons_False by done. done.
Qed.

Lemma pool_run_linear : Atomic.linearizable impl.
Proof.
  intros sched. induction sched as [|[i spurious] sched IH]; intros p; simpl.
  - split; [done|]. split; [done|]. intros j th th' ? ?. by simplify_eq.
  - pose proof (pool_step_linear i spurious p) as Hstep.
    destruct (Atomic.pool_step impl i spurious p) as [p1 h1].
    specialize (IH p1). destruct (Atomic.pool_run impl sched p1) as [p2 h2].
    destruct Hstep as (Hr1 & Hl1 & Hp1). destruct IH as (Hr2 & Hl2 & Hp2).
    split; [by rewrite replay_app, Hr1|]. split; [congruence|].
    intros j th th' Hj Hj'.
    destruct (Atomic.threads p1 !! j) as [th1|] eqn:Ej.
    + rewrite calls_of_app, <- app_assoc, <- (Hp2 j th1 th' Ej Hj'). by apply Hp1.
    + apply lookup_ge_None in Ej. apply lookup_lt_Some in Hj. lia.
Qed.

End Linearization.

(** *** The integer cell: every call is one step *)

Section Int64Pool.

Implicit Types (p : Atomic.Pool Z unit) (th : Atomic.Thread Z unit).

Lemma int64_pool_step i spurious p th :
  Atomic.threads p !! i = Some th ->
  (Atomic.pool_step Atomic.int64_impl i spurious p).1 =
  match Atomic.remaining th with
  | [] => p
  | c :: rest =>
      {| Atomic.cell := (Atomic.call_seq c (Atomic.cell p)).1;
         Atomic.threads :=
           <[i := {| Atomic.running := None; Atomic.pending := rest |}]> (Atomic.threads p) |}
  end.
Proof.
  intros Hi. unfold Atomic.pool_step, Atomic.remaining. simpl. rewrite Hi.
  destruct (Atomic.running th) as [[c []]|]; [by destruct c|].
  destruct (Atomic.pending th) as [|c rest]; [done|]. by destruct c.
Qed.

Lemma int64_pool_step_outside i spurious p :
  Atomic.threads p !! i = None ->
  (Atomic.pool_step Atomic.int64_impl i spurious p).1 = p.
Proof. intros Hi. unfold Atomic.pool_step. simpl. by rewrite Hi. Qed.

(** Wait-freedom: each step of a thread completes one of its calls, so
    that after a schedule a thread is left with its calls less one for
    each of its turns. *)
Lemma int64_pool_run_remaining sched p i th :
  Atomic.threads p !! i = Some th ->
  exists th',
    Atomic.threads (Atomic.pool_run Atomic.int64_impl sched p).1 !! i = Some th' /\
    Atomic.remaining th' = drop (Atomic.turns i sched) (Atomic.remaining th).
Proof.
  revert p th. induction sched as [|[j spurious] sched IH]; intros p th Hi; simpl.
  - exists th. by rewrite drop_0.
  - destruct (Atomic.pool_step Atomic.int64_impl j spurious p) as [p1 h1] eqn:Ep'.
    assert ((Atomic.pool_step Atomic.int64_impl j spurious p).1 = p1) as Ep by by rewrite Ep'.
    clear Ep'.
    assert (exists th1, Atomic.threads p1 !! i = Some th1 /\
              Atomic.remaining th1 =
                drop (if decide (j = i) then 1 else 0)%nat (Atomic.remaining th)) as (th1 & Hi1 & Hr1).
    { destruct (Atomic.threads p !! j) as [thj|] eqn:Ej.
      - rewrite (int64_pool_step j spurious p thj Ej) in Ep.
        destruct (decide (j = i)) as [->|Hne].
        + assert (thj = th) as -> by congruence. subst p1.
          destruct (Atomic.remaining th) as [|c rest] eqn:Er.
          * exists th. by rewrite Er.
          * eexists. simpl. rewrite list_lookup_insert_eq by by eapply lookup_lt_Some.
            split; [done|]. by rewrite drop_0.
        + exists th. rewrite drop_0. split; [|done].
          destruct (Atomic.remaining thj); subst p1; [done|].
          simpl. by rewrite list_lookup_insert_ne.
      - rewrite (int64_pool_step_outside j spurious p Ej) in Ep. subst p1.
        exists th. split; [done|]. destruct (decide (j = i)) as [->|]; [congruence|].
        by rewrite drop_0. }
    destruct (IH p1 th1 Hi1) as (th' & Hi' & Hr').
    destruct (Atomic.pool_run Atomic.int64_impl sched p1) as [p2 h2]. simpl in *.
    exists th'. split; [done|]. rewrite Hr', Hr1, drop_drop. f_equal.
    unfold Atomic.turns. destruct (decide (j = i)) as [->|Hne].
    + rewrite filter_cons_True by done. simpl. lia.
    + rewrite filter_cons_False by done. simpl. lia.
Qed.

Lemma sum_list_insert {A : Type} (f : A -> nat) (l : list A) (i : nat) (x y : A) :
  l !! i = Some x ->
  (sum_list (map f (<[i := y]> l)) + f x = sum_list (map f l) + f y)%nat.
Proof.
  revert i. induction l as [|a l IH]; intros [|i] Hi; simpl in *; try done.
  - simplify_eq. lia.
  - specialize (IH i Hi). lia.
Qed.

Lemma int64_pool_step_incrementing i spurious p :
  Atomic.incrementing p -> Int64.in_range (value_ (Atomic.cell p)) ->
  let p' := (Atomic.pool_step Atomic.int64_impl i spurious p).1 in
  Atomic.incrementing p' /\
  Int64.in_range (value_ (Atomic.cell p')) /\
  (Atomic.work Atomic.int64_impl p' <= Atomic.work Atomic.int64_impl p)%nat /\
  value_ (Atomic.cell p') =
    Int64.wrap (value_ (Atomic.cell p) +
                Z.of_nat (Atomic.work Atomic.int64_impl p - Atomic.work Atomic.int64_impl p')).
Proof.
  intros Hinc Hrange p'. subst p'.
  assert (forall q, Int64.in_range (value_ (Atomic.cell q)) ->
            value_ (Atomic.cell q) =
            Int64.wrap (value_ (Atomic.cell q) +
              Z.of_nat (Atomic.work Atomic.int64_impl q - Atomic.work Atomic.int64_impl q))) as Hsame.
  { intros q Hq. rewrite Nat.sub_diag, Z.add_0_r. symmetry. by apply wrap_small. }
  destruct (Atomic.threads p !! i) as [th|] eqn:Ei.
  2:{ rewrite (int64_pool_step_outside i spurious p Ei). by auto. }
  rewrite (int64_pool_step i spurious p th Ei).
  destruct (Atomic.remaining th) as [|c rest] eqn:Er; [by auto|].
  unfold Atomic.incrementing in Hinc.
  pose proof (proj1 (Forall_lookup _ _) Hinc i th Ei) as Hth. cbv beta in Hth. rewrite Er in Hth.
  apply Forall_cons in Hth as [-> Hrest].
  pose proof (sum_list_insert (fun th => length (Atomic.remaining th)) (Atomic.threads p) i th
                {| Atomic.running := None; Atomic.pending := rest |} Ei) as Hsum.
  cbv beta in Hsum. rewrite Er in Hsum.
  change (Atomic.remaining {| Atomic.running := None; Atomic.pending := rest |})
    with rest in Hsum.
  unfold Atomic.work. simpl in *.
  split; [|split; [apply wrap_in_range|split; [lia|]]].
  - unfold Atomic.incrementing. simpl. by apply Forall_insert.
  - unfold GaugeCell_int64.IncrementBy, Int64.add. simpl. f_equal. lia.
Qed.

(** Under any schedule the threads of an incrementing pool add to the
    cell the number of calls they completed. *)
Lemma int64_pool_run_incrementing sched p :
  Atomic.incrementing p -> Int64.in_range (value_ (Atomic.cell p)) ->
  let p' := (Atomic.pool_run Atomic.int64_impl sched p).1 in
  Atomic.incrementing p' /\
  Int64.in_range (value_ (Atomic.cell p')) /\
  (Atomic.work Atomic.int64_impl p' <= Atomic.work Atomic.int64_impl p)%nat /\
  value_ (Atomic.cell p') =
    Int64.wrap (value_ (Atomic.cell p) +
                Z.of_nat (Atomic.work Atomic.int64_impl p - Atomic.work Atomic.int64_impl p')).
Proof.
  revert p. induction sched as [|[i spurious] sched IH]; intros p Hinc Hrange; simpl.
  - split; [done|]. split; [done|]. split; [done|].
    rewrite Nat.sub_diag, Z.add_0_r. symmetry. by apply wrap_small.
  - destruct (int64_pool_step_incrementing i spurious p Hinc Hrange) as (Hinc1 & Hr1 & Hw1 & Hv1).
    destruct (Atomic.pool_step Atomic.int64_impl i spurious p) as [p1 h1]. simpl in *.
    destruct (IH p1 Hinc1 Hr1) as (Hinc2 & Hr2 & Hw2 & Hv2).
    destruct (Atomic.pool_run Atomic.int64_impl sched p1) as [p2 h2]. simpl in *.
    split; [done|]. split; [done|]. split; [lia|].
    rewrite Hv2, Hv1, wrap_add_l. f_equal. lia.
Qed.

Lemma work_all_done p : Atomic.all_done Atomic.int64_impl p -> Atomic.work Atomic.int64_impl p = 0%nat.
Proof.
  unfold Atomic.all_done, Atomic.work. induction 1 as [|th ths Hth _ IH]; [done|].
  cbn [map sum_list]. by rewrite Hth, IH.
Qed.

Lemma work_incrementers T N :
  Atomic.work Atomic.int64_impl (Atomic.incrementers T N) = (T * N)%nat.
Proof.
  unfold Atomic.work, Atomic.incrementers. simpl.
  induction T as [|T IH]; simpl; [done|].
  unfold Atomic.remaining at 1. simpl. by rewrite length_replicate, IH.
Qed.

Lemma incrementing_incrementers T N : Atomic.incrementing (Atomic.incrementers T N).
Proof.
  unfold Atomic.incrementing, Atomic.incrementers. simpl.
  apply Forall_replicate. unfold Atomic.remaining. simpl. by apply Forall_replicate.
Qed.

(** The threads have returned from all their calls after any schedule
    that gives each of them as many turns as it has calls. *)
Lemma incrementers_complete (T N : nat) (sched : list (nat * bool)) :
  (forall i, (i < T)%nat -> (N <= Atomic.turns i sched)%nat) ->
  Atomic.all_done Atomic.int64_impl
    (Atomic.pool_run Atomic.int64_impl sched (Atomic.incrementers T N)).1.
Proof.
  intros Hturns. unfold Atomic.all_done. apply Forall_lookup.
  intros i th' Hi'.
  assert (i < T)%nat as Hi.
  { apply lookup_lt_Some in Hi'.
    pose proof (pool_run_linear Atomic.int64_impl int64_atomic_steps sched
                (Atomic.incrementers T N)) as Hlin.
    destruct (Atomic.pool_run Atomic.int64_impl sched (Atomic.incrementers T N)) as [p' h].
    destruct Hlin as (_ & Hlen & _). simpl in *. rewrite Hlen, length_replicate in Hi'. done. }
  destruct (int64_pool_run_remaining sched (Atomic.incrementers T N) i
              {| Atomic.running := None; Atomic.pending := replicate N (Atomic.CIncrementBy 1) |})
    as (th1 & Hi1 & Hr1).
  { simpl. by apply lookup_replicate_2. }
  assert (Some th1 = Some th') as [= ->] by exact (eq_trans (eq_sym Hi1) Hi').
  cbv beta. etransitivity; [exact Hr1|].
  apply drop_ge. unfold Atomic.remaining. simpl. rewrite length_replicate. by apply Hturns.
Qed.

Lemma turns_app i (s1 s2 : list (nat * bool)) :
  Atomic.turns i (s1 ++ s2) = (Atomic.turns i s1 + Atomic.turns i s2)%nat.
Proof. unfold Atomic.turns. by rewrite filter_app, length_app. Qed.

Lemma turns_replicate i j (b : bool) (N : nat) :
  Atomic.turns i (replicate N (j, b)) = if decide (j = i) then N else 0%nat.
Proof.
  unfold Atomic.turns. induction N as [|N IH]; simpl.
  - by destruct (decide (j = i)).
  - destruct (decide (j = i)) as [->|Hne].
    + rewrite filter_cons_True by done. simpl. by rewrite IH.
    + by rewrite filter_cons_False.
Qed.

Lemma turns_one_by_one_from i (start len N : nat) :
  Atomic.turns i (flat_map (fun j => replicate N (j, false)) (seq start len)) =
  if decide (start <= i < start + len)%nat then N else 0%nat.
Proof.
  revert start. induction len as [|len IH]; intros start; simpl.
  - rewrite decide_False by lia. done.
  - rewrite turns_app, turns_replicate, IH.
    repeat case_decide; lia.
Qed.

Lemma turns_one_by_one (T N i : nat) :
  (i < T)%nat -> Atomic.turns i (Atomic.one_by_one T N) = N.
Proof.
  intros Hi. unfold Atomic.one_by_one. rewrite turns_one_by_one_from.
  rewrite decide_True by lia. done.
Qed.

(** There is always a schedule after which the threads have returned
    from all their calls. *)
Lemma one_by_one_completes (T N : nat) :
  Atomic.all_done Atomic.int64_impl
    (Atomic.pool_run Atomic.int64_impl (Atomic.one_by_one T N) (Atomic.incrementers T N)).1.
Proof.
  apply incrementers_complete. intros i Hi. by rewrite turns_one_by_one.
Qed.

End Int64Pool.

(** C2. In every interleaving of the atomic operations of [T] threads
    that each call [IncrementBy(1)] [N] times on an integer cell
    holding zero, once the threads have returned from their calls [Get]
    returns [T * N], as long as this is a value of [int64_t]; the
    threads have returned from all their calls after any schedule that
    gives each of them [N] turns. Both specialisations of the cell are
    linearizable: under every schedule the calls that have returned
    are, in the order in which they returned, a sequential run of the
    cell that ends in the value held, with every [Get] returning the
    value held at its place in that order. *)
Theorem concurrent_updates_linearizable :
  (forall (T N : nat) (sched : list (nat * bool)),
     Z.of_nat (T * N) <= Int64.max_value ->
     Atomic.all_done Atomic.int64_impl
       (Atomic.pool_run Atomic.int64_impl sched (Atomic.incrementers T N)).1 ->
     GaugeCell_int64.Get
       (Atomic.cell (Atomic.pool_run Atomic.int64_impl sched (Atomic.incrementers T N)).1)
     = Z.of_nat (T * N)) /\
  (forall (T N : nat) (sched : list (nat * bool)),
     (forall i, (i < T)%nat -> (N <= Atomic.turns i sched)%nat) ->
     Atomic.all_done Atomic.int64_impl
       (Atomic.pool_run Atomic.int64_impl sched (Atomic.incrementers T N)).1) /\
  Atomic.linearizable Atomic.int64_impl /\
  Atomic.linearizable Atomic.double_impl.
Proof.
  split; [|split; [|split]].
  - intros T N sched Hbound Hdone.
    destruct (int64_pool_run_incrementing sched (Atomic.incrementers T N))
      as (_ & _ & _ & Hv).
    + apply incrementing_incrementers.
    + simpl. unfold Int64.in_range, Int64.min_value, Int64.max_value. lia.
    + unfold GaugeCell_int64.Get. rewrite Hv.
      rewrite (work_all_done _ Hdone), work_incrementers, Nat.sub_0_r. simpl.
      apply wrap_small. unfold Int64.in_range, Int64.min_value in *. lia.
  - apply incrementers_complete.
  - apply pool_run_linear, int64_atomic_steps.
  - apply pool_run_linear, double_atomic_steps.
Qed.

Lemma concurrent_updates_linearizable_witness :
  Atomic.all_done Atomic.int64_impl
    (Atomic.pool_run Atomic.int64_impl Scenario.interleaved Scenario.two_by_two).1 /\
  GaugeCell_int64.Get
    (Atomic.cell
       (Atomic.pool_run Atomic.int64_impl Scenario.interleaved Scenario.two_by_two).1) = 4.
Proof.
  assert (Atomic.all_done Atomic.int64_impl
            (Atomic.pool_run Atomic.int64_impl Scenario.interleaved Scenario.two_by_two).1)
    as Hdone.
  { vm_compute. repeat constructor. }
  split; [exact Hdone|].
  refine (proj1 concurrent_updates_linearizable 2%nat 2%nat Scenario.interleaved _ Hdone).
  by vm_compute.
Defined.

(** *** The floating-point cell: the loop of [IncrementBy] *)

Lemma pool_run_cons {T : Type} (impl : Atomic.Impl T) i spurious sched
    (p : Atomic.Pool T (Atomic.locals impl)) :
  Atomic.pool_run impl ((i, spurious) :: sched) p =
  (let '(p', h) := Atomic.pool_step impl i spurious p in
   let '(p'', h') := Atomic.pool_run impl sched p' in (p'', h ++ h')).
Proof. reflexivity. Qed.

Lemma double_IncrementBy_loop (value x : double) (k : nat) :
  Atomic.pool_run Atomic.double_impl
    (replicate k (0%nat, true) ++ [(0%nat, false)])
    {| Atomic.cell := {| value_ := x |};
       Atomic.threads := [ {| Atomic.running := Some (Atomic.CIncrementBy value, Some x);
                              Atomic.pending := [] |} ] |}
  = ({| Atomic.cell := GaugeCell_double.IncrementBy value {| value_ := x |};
        Atomic.threads := [ {| Atomic.running := None; Atomic.pending := [] |} ] |},
     [ {| Atomic.ev_thread := 0%nat;
          Atomic.ev_call := Atomic.CIncrementBy value;
          Atomic.ev_result := None |} ]).
Proof.
  induction k as [|k IH].
  - unfold Atomic.pool_run, Atomic.pool_step. cbn -[Atomic.compare_exchange_weak].
    unfold Atomic.compare_exchange_weak. rewrite bool_decide_eq_true_2 by done.
    reflexivity.
  - cbn [replicate app]. rewrite pool_run_cons.
    assert (Atomic.pool_step Atomic.double_impl 0 true
              {| Atomic.cell := {| value_ := x |};
                 Atomic.threads := [ {| Atomic.running := Some (Atomic.CIncrementBy value, Some x);
                                        Atomic.pending := [] |} ] |}
            = ({| Atomic.cell := {| value_ := x |};
                  Atomic.threads := [ {| Atomic.running := Some (Atomic.CIncrementBy value, Some x);
                                         Atomic.pending := [] |} ] |}, [])) as ->.
    { unfold Atomic.pool_step. cbn -[Atomic.compare_exchange_weak].
      unfold Atomic.compare_exchange_weak. by rewrite andb_false_r. }
    by rewrite IH.
Qed.

(** Run alone, the loop leaves [v + value] in the cell and returns:
    after the load, however many exchanges fail spuriously, the first
    that does not fail succeeds. *)
Lemma double_IncrementBy_alone (value : double) (c : GaugeCell double) (k : nat) :
  Atomic.pool_run Atomic.double_impl
    ((0%nat, false) :: replicate k (0%nat, true) ++ [(0%nat, false)])
    {| Atomic.cell := c;
       Atomic.threads := [ {| Atomic.running := None;
                              Atomic.pending := [Atomic.CIncrementBy value] |} ] |}
  = ({| Atomic.cell := GaugeCell_double.IncrementBy value c;
        Atomic.threads := [ {| Atomic.running := None; Atomic.pending := [] |} ] |},
     [ {| Atomic.ev_thread := 0%nat;
          Atomic.ev_call := Atomic.CIncrementBy value;
          Atomic.ev_result := None |} ]).
Proof.
  destruct c as [x]. rewrite pool_run_cons.
  change (Atomic.pool_step Atomic.double_impl 0 false _)
    with ({| Atomic.cell := {| value_ := x |};
             Atomic.threads := [ {| Atomic.running := Some (Atomic.CIncrementBy value, Some x);
                                    Atomic.pending := [] |} ] |},
          @nil (Atomic.Event double)).
  cbv beta iota.
  match goal with
  | |- context [Atomic.pool_run ?i ?s ?p] =>
      rewrite (double_IncrementBy_loop value x k : Atomic.pool_run i s p = _)
  end.
  reflexivity.
Qed.

(** * Further properties of the facade *)

Section FacadeFacts.
Context {T : Type} `{GaugeValue T} `{Render}.

Implicit Types (g : Gauge.t T) (labels : Labels) (cell : GaugeCell T).

(** Two gauges with the same name, field names, metadata and cells are
    the same gauge. *)
Lemma gauge_eq g g' :
  Gauge.metric_name g' = Gauge.metric_name g ->
  Gauge.field_names g' = Gauge.field_names g ->
  Gauge.metadata g' = Gauge.metadata g ->
  AbstractMetric.cells (Gauge.impl_ g') = AbstractMetric.cells (Gauge.impl_ g) ->
  g' = g.
Proof.
  destruct g as [[n m f c]], g' as [[n' m' f' c']].
  unfold Gauge.metric_name, Gauge.field_names, Gauge.metadata. simpl.
  by intros -> -> -> ->.
Qed.

(** The gauge a call that names a label tuple leaves. *)
Lemma exec_labelled_cells (op : Gauge.Op T) labels g r g' :
  Gauge.op_labels op = Some labels -> Gauge.exec op g = Some (r, g') ->
  exists cell',
    Gauge.cell_exec op (Gauge.current labels g) = Some cell' /\
    g' = {| Gauge.impl_ :=
              AbstractMetric.with_cells (insert labels cell') (Gauge.impl_ g) |}.
Proof.
  intros El He. destruct (exec_labelled op labels g r g' El He) as (c' & Hc & Hm & Hn & Hf & Hd).
  exists c'. split; [done|]. by apply gauge_eq.
Qed.

Lemma exec_labelled_defined (op : Gauge.Op T) labels g cell' :
  Gauge.op_labels op = Some labels ->
  Gauge.cell_exec op (Gauge.current labels g) = Some cell' ->
  exists r, Gauge.exec op g = Some (r,
    {| Gauge.impl_ := AbstractMetric.with_cells (insert labels cell') (Gauge.impl_ g) |}).
Proof.
  intros El Hc.
  destruct (proj2 (exec_defined op g (Gauge.current labels g))) as [[r g'] He]; [by eexists|].
  destruct (exec_labelled_cells op labels g r g' El He) as (c' & Hc' & ->).
  exists r. by simplify_eq.
Qed.

(** X1. [Get] on a label tuple that has a cell leaves the gauge as it
    is; and in any case a second [Get] returns what the first returned
    and leaves the gauge as the first left it. *)
Theorem Get_idempotent labels g :
  (labels ∈ Gauge.tuples g -> (Gauge.Get labels g).2 = g) /\
  Gauge.Get labels (Gauge.Get labels g).2 = Gauge.Get labels g.
Proof.
  assert (forall g0, labels ∈ Gauge.tuples g0 -> (Gauge.Get labels g0).2 = g0) as Hsame.
  { intros g0 Hin. destruct (Get_constants labels g0) as (Hn & Hf & Hm).
    apply gauge_eq; try done. rewrite Get_cells. apply insert_id.
    by apply cell_of_current. }
  split; [apply Hsame|].
  assert (labels ∈ Gauge.tuples (Gauge.Get labels g).2) as Hin.
  { rewrite tuples_Get. set_solver. }
  rewrite (surjective_pairing (Gauge.Get labels (Gauge.Get labels g).2)).
  rewrite (Hsame _ Hin), Get_value.
  rewrite (current_existing _ _ _ (cell_of_Get labels g)), <- Get_value.
  by rewrite <- surjective_pairing.
Qed.

(** X2. Two calls that name different label tuples can be made in
    either order: the gauge they leave is the same, and one order is
    defined when the other is. *)
Theorem calls_on_distinct_tuples_commute (op1 op2 : Gauge.Op T) (A B : Labels) g :
  Gauge.op_labels op1 = Some A -> Gauge.op_labels op2 = Some B -> A <> B ->
  Gauge.run [op1; op2] g = Gauge.run [op2; op1] g.
Proof.
  intros E1 E2 Hne.
  assert (forall (o1 o2 : Gauge.Op T) (L1 L2 : Labels) g0 g1,
            Gauge.op_labels o1 = Some L1 -> Gauge.op_labels o2 = Some L2 -> L1 <> L2 ->
            Gauge.run [o1; o2] g0 = Some g1 -> Gauge.run [o2; o1] g0 = Some g1) as Hswap.
  { intros o1 o2 L1 L2 g0 g2 El1 El2 Hd Hr. simpl in Hr.
    destruct (Gauge.exec o1 g0) as [[r1 g1]|] eqn:He1; [|done].
    destruct (Gauge.exec o2 g1) as [[r2 g2']|] eqn:He2; [|done]. simplify_eq.
    destruct (exec_labelled_cells o1 L1 g0 r1 g1 El1 He1) as (c1 & Hc1 & ->).
    destruct (exec_labelled_cells o2 L2 _ r2 g2 El2 He2) as (c2 & Hc2 & ->).
    assert (Gauge.current L2 g0 =
            Gauge.current L2 {| Gauge.impl_ :=
              AbstractMetric.with_cells (insert L1 c1) (Gauge.impl_ g0) |}) as Hcur2.
    { unfold Gauge.current, Gauge.cell_of. simpl. by rewrite lookup_insert_ne. }
    rewrite <- Hcur2 in Hc2.
    destruct (exec_labelled_defined o2 L2 g0 c2 El2 Hc2) as (r2' & He2').
    simpl. rewrite He2'.
    assert (Gauge.current L1 g0 =
            Gauge.current L1 {| Gauge.impl_ :=
              AbstractMetric.with_cells (insert L2 c2) (Gauge.impl_ g0) |}) as Hcur1.
    { unfold Gauge.current, Gauge.cell_of. simpl. by rewrite lookup_insert_ne. }
    rewrite Hcur1 in Hc1.
    destruct (exec_labelled_defined o1 L1 _ c1 El1 Hc1) as (r1' & He1').
    rewrite He1'. f_equal. apply gauge_eq; try done. simpl.
    by apply insert_insert_ne. }
  destruct (Gauge.run [op1; op2] g) as [g1|] eqn:Hr1.
  - symmetry. by apply (Hswap op1 op2 A B).
  - destruct (Gauge.run [op2; op1] g) as [g2|] eqn:Hr2; [|done].
    rewrite (Hswap op2 op1 B A g g2) in Hr1; done.
Qed.

End FacadeFacts.

Section CollectMore.
Context {T : Type} `{GaugeValue T} `{Render}.

Implicit Types (g : Gauge.t T) (labels : Labels) (cell : GaugeCell T).

Lemma map_to_list_elements (m : gmap Labels (GaugeCell T)) (d : GaugeCell T) :
  map_to_list m ≡ₚ map (fun l => (l, default d (m !! l))) (elements (dom m)).
Proof.
  induction m as [|i x m Hi IH] using map_ind.
  - by rewrite map_to_list_empty, dom_empty_L, elements_empty.
  - rewrite map_to_list_insert by done.
    rewrite dom_insert_L, elements_union_singleton by by apply not_elem_of_dom.
    simpl. rewrite lookup_insert_eq. simpl. constructor.
    rewrite IH. apply reflexive_eq. apply map_ext_in. intros l Hl.
    rewrite lookup_insert_ne; [done|]. intros ->.
    apply list_elem_of_In, elem_of_elements, elem_of_dom in Hl.
    rewrite Hi in Hl. by destruct Hl.
Qed.

(** X3. After any sequence of calls on a gauge made by [Allocate],
    [Collect] has, up to their order, one entry per label tuple the
    calls named and no other; the value of the entry of a tuple is the
    one the calls naming that tuple leave, in order, in a
    default-constructed cell. *)
Theorem Collect_complete (name : string) (names : list string) (md : MetricMetadata)
    (ops : list (Gauge.Op T)) g :
  Gauge.run ops (Gauge.Allocate name names md) = Some g ->
  CollectedMetric.gauges (Gauge.Collect g) ≡ₚ
    map (fun l => Gauge.entry l (Gauge.current l g)) (elements (Gauge.touched ops)) /\
  length (CollectedMetric.gauges (Gauge.Collect g)) = size (Gauge.touched ops) /\
  forall l, Gauge.cell_run l ops Cell_default = Some (Gauge.current l g).
Proof.
  intros Hr.
  assert (Gauge.tuples g = Gauge.touched ops) as Ht.
  { rewrite (run_tuples _ _ _ Hr), tuples_Allocate. set_solver. }
  split; [|split].
  - rewrite Collect_gauges, (map_to_list_elements _ Cell_default).
    rewrite map_map. fold (Gauge.tuples g). rewrite Ht. done.
  - by rewrite Collect_length, Ht.
  - intros l. rewrite <- (run_current ops _ g l Hr). by rewrite current_Allocate.
Qed.



(** X5. No call changes what the accessors return: after any sequence
    of calls on a gauge made by [Allocate], [tag] is "gauge" and
    [metric_name], [field_names] and [metadata] are the arguments of
    [Allocate]; the gauge [Allocate] returns has no cell. *)
Theorem accessors_constant (name : string) (names : list string) (md : MetricMetadata)
    (ops : list (Gauge.Op T)) g :
  Gauge.run ops (Gauge.Allocate name names md) = Some g ->
  Gauge.tag g = "gauge" /\
  Gauge.metric_name g = name /\
  Gauge.field_names g = names /\
  Gauge.metadata g = md /\
  CollectedMetric.gauges (Gauge.Collect (Gauge.Allocate (T:=T) name names md)) = [].
Proof.
  intros Hr. destruct (run_constants _ _ _ Hr) as (Hn & Hf & Hm).
  split; [done|]. split; [by rewrite Hn|]. split; [by rewrite Hf|]. split; [by rewrite Hm|].
  rewrite Collect_gauges. simpl. by rewrite map_to_list_empty.
Qed.

End CollectMore.

(** * [Set] and the calls before it *)

Section SetOverrides.
Context {T : Type} `{GaugeValue T} `{Render}.
Hypothesis Set_value : forall (v : T) (c : GaugeCell T), Cell_Set v c = {| value_ := v |}.

Implicit Types (g : Gauge.t T) (labels : Labels) (ops : list (Gauge.Op T)).

Lemma run_app ops1 ops2 g :
  Gauge.run (ops1 ++ ops2) g = Gauge.run ops1 g ≫= Gauge.run ops2.
Proof.
  revert g. induction ops1 as [|op ops1 IH]; intros g; simpl; [done|].
  destruct (Gauge.exec op g) as [[r g1]|]; [apply IH|done].
Qed.

Lemma run_after_Set ops1 ops2 (v : T) labels g g' :
  Gauge.run (ops1 ++ Gauge.OSet v labels :: ops2) g = Some g' ->
  Gauge.cell_run labels ops2 {| value_ := v |} = Some (Gauge.current labels g').
Proof.
  rewrite run_app. destruct (Gauge.run ops1 g) as [g1|] eqn:Hr1; [|done]. simpl.
  intros Hr2. rewrite <- (run_current ops2 _ g' labels Hr2). f_equal.
  unfold Gauge.Set_. rewrite (current_existing _ _ _ (cell_of_at_cell _ _ _)).
  symmetry. apply Set_value.
Qed.

End SetOverrides.

(** X6. On either gauge, what [Get] returns for a label tuple after a
    [Set] of that tuple depends only on the value set and on the calls
    made afterwards that name the tuple: it is what these calls leave
    in a cell holding that value, whatever the gauge was and whatever
    calls came before the [Set]. *)
Theorem Set_overrides `{Render} :
  (forall (ops1 ops2 : list (Gauge.Op Z)) (v : Z) (labels : Labels) (g g' : Gauge.t Z),
     Gauge.run (ops1 ++ Gauge.OSet v labels :: ops2) g = Some g' ->
     exists c, Gauge.cell_run labels ops2 {| value_ := v |} = Some c /\
               (Gauge.Get labels g').1 = GaugeCell_int64.Get c) /\
  (forall (ops1 ops2 : list (Gauge.Op double)) (v : double) (labels : Labels)
          (g g' : Gauge.t double),
     Gauge.run (ops1 ++ Gauge.OSet v labels :: ops2) g = Some g' ->
     exists c, Gauge.cell_run labels ops2 {| value_ := v |} = Some c /\
               (Gauge.Get labels g').1 = GaugeCell_double.Get c).
Proof.
  assert (forall (v : Z) (c : GaugeCell Z), Cell_Set v c = {| value_ := v |}) as HZ by done.
  assert (forall (v : double) (c : GaugeCell double), Cell_Set v c = {| value_ := v |})
    as HD by done.
  split; intros ops1 ops2 v labels g g' Hr; exists (Gauge.current labels g').
  - split; [|by rewrite Get_value]. by apply (run_after_Set HZ ops1 ops2 v labels g).
  - split; [|by rewrite Get_value]. by apply (run_after_Set HD ops1 ops2 v labels g).
Qed.

Lemma Set_overrides_witness :
  exists g',
    Gauge.run (H0:=Scenario.plain)
      ([Gauge.OSet 10 Scenario.a; Gauge.OIncrementBy 5 Scenario.a]
         ++ Gauge.OSet 3 Scenario.a :: [Gauge.OIncrement Scenario.a]) Scenario.requests
      = Some g' /\
    (Gauge.Get Scenario.a g').1 = 4.
Proof.
  eexists. split; [reflexivity|].
  destruct (proj1 (@Set_overrides Scenario.plain)
              [Gauge.OSet 10 Scenario.a; Gauge.OIncrementBy 5 Scenario.a]
              [Gauge.OIncrement Scenario.a] 3 Scenario.a Scenario.requests _ eq_refl)
    as (c & Hc & Hv).
  rewrite Hv. vm_compute in Hc. by injection Hc as <-.
Defined.

(** * Further properties of the integer gauge *)

Section Int64Gauge.
Context `{Render}.

Implicit Types (g : Gauge.t Z) (labels : Labels) (c : GaugeCell Z) (ops : list (Gauge.Op Z)).

Lemma int64_exec_defined (op : Gauge.Op Z) g : is_Some (Gauge.exec op g).
Proof. apply (exec_defined op g Cell_default). destruct op; simpl; eauto. Qed.

Lemma int64_run_defined ops g : is_Some (Gauge.run ops g).
Proof.
  revert g. induction ops as [|op ops IH]; intros g; simpl; [eauto|].
  destruct (int64_exec_defined op g) as [[r g1] ->]. apply IH.
Qed.

Lemma int64_cell_exec_in_range (op : Gauge.Op Z) c c' :
  Gauge_int64.op_in_range op -> Int64.in_range (value_ c) ->
  Gauge.cell_exec op c = Some c' -> Int64.in_range (value_ c').
Proof.
  intros Hop Hc He. destruct op; simpl in *; simplify_eq; simpl;
    try apply wrap_in_range; done.
Qed.

Lemma int64_run_in_range ops g g' :
  Forall Gauge_int64.op_in_range ops ->
  (forall l c, Gauge.cell_of l g = Some c -> Int64.in_range (value_ c)) ->
  Gauge.run ops g = Some g' ->
  forall l c, Gauge.cell_of l g' = Some c -> Int64.in_range (value_ c).
Proof.
  intros Hops. revert g. induction Hops as [|op ops Hop _ IH]; intros g Hg Hr; simpl in Hr.
  - by simplify_eq.
  - destruct (Gauge.exec op g) as [[r g1]|] eqn:He; [|done].
    apply (IH g1); [|done]. intros l c Hl.
    destruct (Gauge.op_labels op) as [l1|] eqn:El.
    + destruct (exec_labelled op l1 g r g1 El He) as (c1 & Hc1 & Hm & _).
      unfold Gauge.cell_of in Hl. rewrite Hm in Hl.
      destruct (decide (l1 = l)) as [->|Hne].
      * rewrite lookup_insert_eq in Hl. simplify_eq.
        apply (int64_cell_exec_in_range op (Gauge.current l g)); try done.
        unfold Gauge.current. destruct (Gauge.cell_of l g) as [c0|] eqn:E0; simpl.
        -- by apply (Hg l).
        -- unfold Int64.in_range, Int64.min_value, Int64.max_value. lia.
      * rewrite lookup_insert_ne in Hl by done. by apply (Hg l).
    + rewrite (exec_unlabelled op g r g1 El He) in Hl. by apply (Hg l).
Qed.

(** X7. On an integer gauge made by [Allocate], after any sequence of
    calls whose arguments are values of [int64_t], every cell holds a
    value of [int64_t]: so does what [Get] returns for any label tuple,
    and so does every entry of [Collect]. *)
Theorem int64_values_in_range (name : string) (names : list string) (md : MetricMetadata)
    ops g :
  Forall Gauge_int64.op_in_range ops ->
  Gauge.run ops (Gauge.Allocate name names md) = Some g ->
  (forall l c, Gauge.cell_of l g = Some c -> Int64.in_range (value_ c)) /\
  (forall l, Int64.in_range (Gauge.Get l g).1) /\
  Forall (fun e => Int64.in_range (CollectedMetric.value e))
         (CollectedMetric.gauges (Gauge.Collect g)).
Proof.
  intros Hops Hr.
  assert (forall l c, Gauge.cell_of l g = Some c -> Int64.in_range (value_ c)) as Hcells.
  { by apply (int64_run_in_range ops (Gauge.Allocate name names md)). }
  split; [done|]. split.
  - intros l. rewrite Get_value. unfold Gauge.current.
    destruct (Gauge.cell_of l g) as [c|] eqn:E; simpl.
    + by apply (Hcells l).
    + unfold Int64.in_range, Int64.min_value, Int64.max_value. lia.
  - apply Forall_forall. intros e He.
    destruct (Collect_entry_inv g e He) as (l & c & Hc & ->). simpl. by apply (Hcells l).
Qed.

Lemma int64_cell_run_net labels ops c :
  Forall (fun op => ~ Gauge_int64.sets labels op) ops ->
  Int64.in_range (value_ c) ->
  Gauge.cell_run labels ops c =
  Some {| value_ := Int64.wrap (value_ c + Gauge_int64.net labels ops) |}.
Proof.
  intros Hops. revert c. induction Hops as [|op ops Hop _ IH]; intros [x] Hx; simpl in *.
  - by rewrite Z.add_0_r, wrap_small.
  - destruct (decide (Gauge.op_labels op = Some labels)) as [El|Hn].
    + assert (Gauge.cell_exec op {| value_ := x |} =
              Some {| value_ := Int64.wrap (x + Gauge_int64.delta op) |}) as ->.
      { destruct op as [l|v l|l|v l|v l|l| |]; simpl in *; simplify_eq.
        all: try done.
        all: try (unfold GaugeCell_int64.DecrementBy, GaugeCell_int64.IncrementBy; simpl;
                  by rewrite add_neg).
        all: try by rewrite Z.add_0_r, wrap_small.
        all: by destruct Hop. }
      rewrite IH by apply wrap_in_range. simpl. rewrite wrap_add_l. do 3 f_equal. lia.
    + rewrite IH by done. done.
Qed.

(** X8. On an integer gauge, after a sequence of calls none of which
    is a [Set] of the label tuple, [Get] returns for that tuple what it
    returned before plus the sum of what the calls naming the tuple
    added: 1 for [Increment], [v] for [IncrementBy(v)], -1 for
    [Decrement] and [-v] for [DecrementBy(v)], modulo 2^64 as a signed
    64-bit value. The sequence is always defined. *)
Theorem int64_net_value labels ops g :
  Forall (fun op => ~ Gauge_int64.sets labels op) ops ->
  Int64.in_range (Gauge.Get labels g).1 ->
  exists g',
    Gauge.run ops g = Some g' /\
    (Gauge.Get labels g').1 =
      Int64.wrap ((Gauge.Get labels g).1 + Gauge_int64.net labels ops).
Proof.
  intros Hops Hp. destruct (int64_run_defined ops g) as [g' Hr]. exists g'.
  split; [done|]. rewrite !Get_value in *.
  pose proof (run_current ops g g' labels Hr) as Hc.
  rewrite (int64_cell_run_net labels ops _ Hops Hp) in Hc.
  injection Hc as Hc. by rewrite <- Hc.
Qed.

Lemma net_Permutation labels ops ops' :
  ops ≡ₚ ops' -> Gauge_int64.net labels ops = Gauge_int64.net labels ops'.
Proof. induction 1; simpl; lia. Qed.

(** X9. On an integer gauge the order of increments and decrements
    does not matter: two sequences of calls that are permutations of
    each other, with no [Set] of the label tuple among them, leave the
    same value for [Get] to return, whatever the other calls are. *)
Theorem int64_order_irrelevant labels ops ops' g g1 g2 :
  ops ≡ₚ ops' ->
  Forall (fun op => ~ Gauge_int64.sets labels op) ops ->
  Int64.in_range (Gauge.Get labels g).1 ->
  Gauge.run ops g = Some g1 -> Gauge.run ops' g = Some g2 ->
  (Gauge.Get labels g1).1 = (Gauge.Get labels g2).1.
Proof.
  intros Hperm Hops Hp Hr1 Hr2.
  assert (Forall (fun op => ~ Gauge_int64.sets labels op) ops') as Hops'
    by by rewrite <- Hperm.
  rewrite !Get_value in *.
  pose proof (run_current ops g g1 labels Hr1) as Hc1.
  pose proof (run_current ops' g g2 labels Hr2) as Hc2.
  rewrite (int64_cell_run_net labels ops _ Hops Hp) in Hc1.
  rewrite (int64_cell_run_net labels ops' _ Hops' Hp) in Hc2.
  injection Hc1 as Hc1. injection Hc2 as Hc2. rewrite <- Hc1, <- Hc2. simpl.
  by rewrite (net_Permutation labels ops ops').
Qed.

End Int64Gauge.

(** * Further properties of the floating-point gauge *)

Lemma double_add_opp (x : double) :
  Gauge_double.finite x -> Double.add x (Double.opp x) = Double.zero.
Proof.
  destruct x as [[]| | |s m e]; simpl; try done. intros _.
  unfold Double.add, Double.opp. simpl. rewrite Z.min_id.
  unfold shl_align. rewrite Z.sub_diag. simpl.
  by destruct s; simpl; rewrite ?Z.add_opp_diag_r, ?Z.add_opp_diag_l.
Qed.

Lemma double_add_zero_l (z x : double) :
  Gauge_double.is_zero z -> Gauge_double.finite x ->
  Double.add (Double.add z x) (Double.opp x) = Double.zero.
Proof.
  destruct z as [sz| | |]; simpl; try done. intros _ Hx.
  destruct x as [sx| | |s m e]; simpl in *; try done.
  - by destruct sz, sx.
  - change (Double.add (S754_zero sz) (S754_finite s m e)) with (S754_finite s m e).
    by apply (double_add_opp (S754_finite s m e)).
Qed.

Lemma double_add_nan_r (x : double) : Double.add x S754_nan = S754_nan.
Proof. by destruct x. Qed.

Lemma double_add_zero_r (x : double) :
  x <> S754_zero true -> Double.add x (S754_zero false) = x.
Proof. by destruct x as [[]| | |]. Qed.

Lemma Get_after_at_cell {T : Type} `{GaugeValue T} (labels : Labels)
    (method : GaugeCell T -> GaugeCell T) (g : Gauge.t T) :
  (Gauge.Get labels (Gauge.at_cell labels method g)).1 = Cell_Get (method (Gauge.current labels g)).
Proof. by rewrite Get_value, (current_existing _ _ _ (cell_of_at_cell _ _ _)). Qed.

(** X10. On a floating-point gauge, for a label tuple whose cell holds
    zero (or has no cell yet) and every finite [x], [IncrementBy(x)]
    followed by [IncrementBy(-x)] leaves exactly 0.0, as in the example
    of the header; so does [Increment] followed by [Decrement]. *)
Theorem double_IncrementBy_opposite (x : double) (labels : Labels) (g : Gauge.t double) :
  Gauge_double.finite x ->
  Gauge_double.is_zero (Gauge.Get labels g).1 ->
  (Gauge.Get labels
     (Gauge.IncrementBy (Double.opp x) labels (Gauge.IncrementBy x labels g))).1
    = Double.zero /\
  (Gauge.Get labels (Gauge.Decrement labels (Gauge.Increment labels g))).1 = Double.zero.
Proof.
  intros Hx Hz. rewrite Get_value in Hz.
  unfold Gauge.IncrementBy, Gauge.Decrement, Gauge.Increment.
  rewrite !Get_after_at_cell.
  rewrite !(current_existing _ _ _ (cell_of_at_cell _ _ _)). simpl. split.
  - by apply double_add_zero_l.
  - by apply (double_add_zero_l _ (Double.of_int64 1)).
Qed.

Lemma double_cell_exec_nan (op : Gauge.Op double) (labels : Labels) (c c' : GaugeCell double) :
  ~ Gauge_double.sets labels op -> Gauge.op_labels op = Some labels ->
  value_ c = S754_nan -> Gauge.cell_exec op c = Some c' -> value_ c' = S754_nan.
Proof.
  intros Hs El Hc He. destruct c as [x]. simpl in Hc. subst x.
  destruct op as [l|v l|l|v l|v l|l| |]; simpl in *; simplify_eq; try done.
  by destruct (Double.to_int64 v); simplify_eq.
Qed.

Lemma double_cell_run_nan (labels : Labels) (ops : list (Gauge.Op double))
    (c c' : GaugeCell double) :
  Forall (fun op => ~ Gauge_double.sets labels op) ops ->
  value_ c = S754_nan -> Gauge.cell_run labels ops c = Some c' -> value_ c' = S754_nan.
Proof.
  intros Hops. revert c. induction Hops as [|op ops Hop _ IH]; intros c Hc Hr; simpl in Hr.
  - by simplify_eq.
  - destruct (decide (Gauge.op_labels op = Some labels)) as [El|Hn].
    + destruct (Gauge.cell_exec op c) as [c1|] eqn:He; [|done].
      apply (IH c1); [|done]. by apply (double_cell_exec_nan op labels c).
    + by apply (IH c).
Qed.

(** X11. On a floating-point gauge NaN stays: [IncrementBy] of NaN
    leaves NaN in the cell, and once [Get] returns NaN for a label
    tuple it returns NaN after any sequence of calls, until one of them
    is a [Set] of that tuple. *)
Theorem double_NaN_stays `{Render} (labels : Labels) (ops : list (Gauge.Op double))
    (g g' : Gauge.t double) :
  (Gauge.Get labels (Gauge.IncrementBy S754_nan labels g)).1 = S754_nan /\
  ((Gauge.Get labels g).1 = S754_nan ->
   Forall (fun op => ~ Gauge_double.sets labels op) ops ->
   Gauge.run ops g = Some g' ->
   (Gauge.Get labels g').1 = S754_nan).
Proof.
  split.
  - unfold Gauge.IncrementBy. rewrite Get_after_at_cell. apply double_add_nan_r.
  - rewrite !Get_value. intros Hc Hops Hr.
    apply (double_cell_run_nan labels ops (Gauge.current labels g)); try done.
    by apply run_current.
Qed.

Lemma to_int64_fraction (s : bool) (m : positive) (e : Z) :
  Z.pos m < 2 ^ (- e) -> Double.to_int64 (S754_finite s m e) = Some 0.
Proof.
  intros Hm. assert (e < 0) as He.
  { destruct (Z.lt_ge_cases e 0) as [|Hge]; [done|].
    assert (2 ^ (- e) <= 1); [|lia].
    destruct (Z.eq_dec e 0) as [->|]; [done|]. rewrite Z.pow_neg_r by lia. lia. }
  unfold Double.to_int64.
  rewrite Z.shiftl_div_pow2 by lia. rewrite Z.div_small by lia.
  by destruct s.
Qed.

(** X12. On a floating-point gauge, [DecrementBy(v)] for a [v] of
    magnitude below 1 changes nothing that [Get] returns: the argument
    reaches the cell as the integer 0. (A cell that holds -0.0 is left
    at 0.0.) *)
Theorem double_DecrementBy_fraction (s : bool) (m : positive) (e : Z)
    (labels : Labels) (g : Gauge.t double) :
  Z.pos m < 2 ^ (- e) ->
  (Gauge.Get labels g).1 <> S754_zero true ->
  exists g',
    Gauge.DecrementBy (S754_finite s m e) labels g = Some g' /\
    (Gauge.Get labels g').1 = (Gauge.Get labels g).1.
Proof.
  intros Hm Hnz. eexists. split.
  - by apply double_DecrementBy_int64, to_int64_fraction.
  - unfold Gauge.IncrementBy. rewrite Get_after_at_cell.
    rewrite Get_value in *. simpl in *.
    change (Double.of_int64 (Int64.neg 0)) with (S754_zero false).
    by apply double_add_zero_r.
Qed.

(** * Further properties of the cells under concurrent callers *)

Section AddersPool.

Implicit Types (p : Atomic.Pool Z unit) (th : Atomic.Thread Z unit).









End AddersPool.

Section CountingPool.

Implicit Types (p : Atomic.Pool Z unit) (th : Atomic.Thread Z unit).





End CountingPool.

(** *** The loop of [IncrementBy] among other threads *)

Section Unobstructed.

Implicit Types (p : Atomic.Pool double (option double)).

Lemma double_load_step i spurious p value rest :
  Adders.about_to_increment i value rest p ->
  Atomic.pool_step Atomic.double_impl i spurious p =
  ({| Atomic.cell := Atomic.cell p;
      Atomic.threads :=
        <[i := {| Atomic.running := Some (Atomic.CIncrementBy value, Some (value_ (Atomic.cell p)));
                  Atomic.pending := rest |}]> (Atomic.threads p) |}, []).
Proof.
  unfold Adders.about_to_increment. intros Hi. unfold Atomic.pool_step. simpl.
  by rewrite Hi.
Qed.

Lemma double_cas_step i spurious p value v rest :
  Atomic.threads p !! i =
    Some {| Atomic.running := Some (Atomic.CIncrementBy value, Some v);
            Atomic.pending := rest |} ->
  Atomic.pool_step Atomic.double_impl i spurious p =
  if bool_decide (value_ (Atomic.cell p) = v) && negb spurious
  then ({| Atomic.cell := GaugeCell_double.IncrementBy value (Atomic.cell p);
           Atomic.threads :=
             <[i := {| Atomic.running := None; Atomic.pending := rest |}]> (Atomic.threads p) |},
        [ {| Atomic.ev_thread := i; Atomic.ev_call := Atomic.CIncrementBy value;
             Atomic.ev_result := None |} ])
  else ({| Atomic.cell := Atomic.cell p;
           Atomic.threads :=
             <[i := {| Atomic.running :=
                         Some (Atomic.CIncrementBy value, Some (value_ (Atomic.cell p)));
                       Atomic.pending := rest |}]> (Atomic.threads p) |}, []).
Proof.
  intros Hi. unfold Atomic.pool_step. cbn -[Atomic.compare_exchange_weak]. rewrite Hi.
  cbn -[Atomic.compare_exchange_weak]. unfold Atomic.compare_exchange_weak.
  destruct p as [[x] ths]. simpl.
  destruct (bool_decide (x = v)) eqn:E, spurious; simpl; try done.
  apply bool_decide_eq_true in E. by subst.
Qed.

End Unobstructed.

Section UnobstructedLoop.

Implicit Types (p : Atomic.Pool double (option double)).

Lemma double_loop_from_load i value rest (k : nat) p :
  Atomic.threads p !! i =
    Some {| Atomic.running := Some (Atomic.CIncrementBy value, Some (value_ (Atomic.cell p)));
            Atomic.pending := rest |} ->
  Atomic.pool_run Atomic.double_impl (replicate k (i, true) ++ [(i, false)]) p =
  ({| Atomic.cell := GaugeCell_double.IncrementBy value (Atomic.cell p);
      Atomic.threads :=
        <[i := {| Atomic.running := None; Atomic.pending := rest |}]> (Atomic.threads p) |},
   [ {| Atomic.ev_thread := i; Atomic.ev_call := Atomic.CIncrementBy value;
        Atomic.ev_result := None |} ]).
Proof.
  intros Hi. induction k as [|k IH]; cbn [replicate app]; rewrite pool_run_cons.
  - rewrite (double_cas_step i false p value _ rest Hi).
    rewrite bool_decide_eq_true_2 by done. reflexivity.
  - rewrite (double_cas_step i true p value _ rest Hi). rewrite andb_false_r.
    rewrite list_insert_id by done.
    replace {| Atomic.cell := Atomic.cell p; Atomic.threads := Atomic.threads p |} with p
      by by destruct p.
    by rewrite IH.
Qed.

(** X15. The loop of [IncrementBy] on the floating-point cell cannot
    be held up by threads that do not move: in any pool, a thread that
    takes its load and then its exchanges without another thread moving
    in between returns at the first exchange that does not fail
    spuriously, having added its argument to the value the cell held;
    the other threads are as they were. *)
Theorem double_IncrementBy_unobstructed (i : nat) (value : double)
    (rest : list (Atomic.Call double)) (spurious : bool) (k : nat) p :
  Adders.about_to_increment i value rest p ->
  Atomic.pool_run Atomic.double_impl
    ((i, spurious) :: replicate k (i, true) ++ [(i, false)]) p =
  ({| Atomic.cell := GaugeCell_double.IncrementBy value (Atomic.cell p);
      Atomic.threads :=
        <[i := {| Atomic.running := None; Atomic.pending := rest |}]> (Atomic.threads p) |},
   [ {| Atomic.ev_thread := i; Atomic.ev_call := Atomic.CIncrementBy value;
        Atomic.ev_result := None |} ]).
Proof.
  intros Hi. rewrite pool_run_cons, (double_load_step i spurious p value rest Hi).
  match goal with
  | |- context [Atomic.pool_run ?im ?s ?q] =>
      rewrite (double_loop_from_load i value rest k q)
  end.
  - simpl. by rewrite list_insert_insert_eq.
  - simpl. apply list_lookup_insert_eq. unfold Adders.about_to_increment in Hi.
    by eapply lookup_lt_Some.
Qed.

End UnobstructedLoop.

(** *** Every call takes effect once *)

Section EveryCallOnce.
Context {T : Type} (impl : Atomic.Impl T).

Implicit Types (p : Atomic.Pool T (Atomic.locals impl)).

Lemma all_remaining_insert (l : list (Atomic.Thread T (Atomic.locals impl))) i th th' cs :
  l !! i = Some th -> Atomic.remaining th = cs ++ Atomic.remaining th' ->
  concat (map Atomic.remaining l) ≡ₚ cs ++ concat (map Atomic.remaining (<[i := th']> l)).
Proof.
  revert i. induction l as [|a l IH]; intros [|i] Hi Hr; simpl in *; try done.
  - simplify_eq. by rewrite Hr, <- app_assoc.
  - rewrite (IH i Hi Hr). rewrite !app_assoc. apply Permutation_app_tail, Permutation_app_comm.
Qed.

Lemma pool_step_calls i spurious p :
  map Atomic.ev_call (Atomic.pool_step impl i spurious p).2
    ++ Adders.all_remaining (Atomic.pool_step impl i spurious p).1
  ≡ₚ Adders.all_remaining p.
Proof.
  unfold Atomic.pool_step, Adders.all_remaining.
  destruct (Atomic.threads p !! i) as [th|] eqn:Ei; [|done].
  set (next := match Atomic.running th with
               | Some (c, l) => Some (c, l, Atomic.pending th)
               | None => match Atomic.pending th with
                         | c :: rest => Some (c, Atomic.entry impl, rest)
                         | [] => None
                         end
               end).
  assert (match next with
          | Some (c, _, rest) => Atomic.remaining th = c :: rest
          | None => True
          end) as Hnext.
  { unfold next, Atomic.remaining.
    destruct (Atomic.running th) as [[c l]|]; [done|]. by destruct (Atomic.pending th). }
  destruct next as [[[c l] rest]|]; [|done].
  destruct (Atomic.step impl spurious c l (Atomic.cell p)) as [[l'|r] x']; simpl.
  - symmetry. by apply (all_remaining_insert _ i th _ []).
  - symmetry. by apply (all_remaining_insert _ i th _ [c]).
Qed.

Lemma pool_run_calls sched p :
  map Atomic.ev_call (Atomic.pool_run impl sched p).2
    ++ Adders.all_remaining (Atomic.pool_run impl sched p).1
  ≡ₚ Adders.all_remaining p.
Proof.
  revert p. induction sched as [|[i spurious] sched IH]; intros p; simpl; [done|].
  pose proof (pool_step_calls i spurious p) as Hs.
  destruct (Atomic.pool_step impl i spurious p) as [p1 h1]. simpl in Hs.
  specialize (IH p1). destruct (Atomic.pool_run impl sched p1) as [p2 h2]. simpl in *.
  rewrite map_app, <- app_assoc, IH. done.
Qed.

Lemma all_remaining_done p : Atomic.all_done impl p -> Adders.all_remaining p = [].
Proof.
  unfold Atomic.all_done, Adders.all_remaining. generalize (Atomic.threads p). intros l Hd.
  induction Hd as [|th ths Hth _ IH]; [done|]. cbn [map concat]. by rewrite Hth, IH.
Qed.

Lemma pool_run_calls_done sched p :
  Atomic.all_done impl (Atomic.pool_run impl sched p).1 ->
  map Atomic.ev_call (Atomic.pool_run impl sched p).2 ≡ₚ Adders.all_remaining p.
Proof.
  intros Hd. rewrite <- (pool_run_calls sched p), (all_remaining_done _ Hd).
  by rewrite app_nil_r.
Qed.

End EveryCallOnce.


Lemma replay_increments (h : list (Atomic.Event double)) (xs : list double)
    (c c' : GaugeCell double) :
  map Atomic.ev_call h = map Atomic.CIncrementBy xs ->
  Atomic.replay h c = Some c' ->
  value_ c' = foldl Double.add (value_ c) xs.
Proof.
  revert xs c. induction h as [|e h IH]; intros [|x xs] c Hm Hr; simpl in *; try done.
  - by simplify_eq.
  - injection Hm as He Hm. rewrite He in Hr. simpl in Hr.
    destruct (decide (None = Atomic.ev_result e)); [|done].
    by rewrite (IH xs _ Hm Hr).
Qed.

Lemma increments_of_calls (cs : list (Atomic.Call double)) (xs : list double) :
  cs ≡ₚ map Atomic.CIncrementBy xs ->
  exists order, order ≡ₚ xs /\ cs = map Atomic.CIncrementBy order.
Proof.
  intros Hp. apply Permutation_map_inv in Hp.
  destruct Hp as (order & -> & Hp). exists order. by split.
Qed.

Lemma all_remaining_double_incrementers c0 args :
  Adders.all_remaining (Adders.double_incrementers c0 args) =
  map Atomic.CIncrementBy (concat args).
Proof.
  unfold Adders.all_remaining, Adders.double_incrementers. simpl.
  induction args as [|xs args IH]; [done|]. cbn [map concat].
  rewrite IH, map_app. done.
Qed.

(** X17. No increment of the floating-point cell is lost: when threads
    pass their arguments to [IncrementBy] in any interleaving, with the
    exchanges failing and being retried as they may, then once all
    calls have returned the cell holds its first value with all the
    arguments added to it, each once, one after the other in some
    order. *)
Theorem double_increments_all_added (sched : list (nat * bool)) (c0 : GaugeCell double)
    (args : list (list double)) :
  Atomic.all_done Atomic.double_impl
    (Atomic.pool_run Atomic.double_impl sched (Adders.double_incrementers c0 args)).1 ->
  exists order,
    order ≡ₚ concat args /\
    GaugeCell_double.Get
      (Atomic.cell
         (Atomic.pool_run Atomic.double_impl sched (Adders.double_incrementers c0 args)).1)
    = foldl Double.add (value_ c0) order.
Proof.
  intros Hd.
  pose proof (pool_run_calls_done Atomic.double_impl sched _ Hd) as Hc.
  rewrite all_remaining_double_incrementers in Hc.
  destruct (increments_of_calls _ _ Hc) as (order & Hperm & Hcalls).
  exists order. split; [done|].
  pose proof (pool_run_linear Atomic.double_impl double_atomic_steps sched
                (Adders.double_incrementers c0 args)) as Hl.
  destruct (Atomic.pool_run Atomic.double_impl sched (Adders.double_incrementers c0 args))
    as [p' h]. destruct Hl as (Hr & _). simpl in *.
  by apply (replay_increments h order c0).
Qed.

Lemma double_increments_all_added_witness :
  Atomic.all_done Atomic.double_impl
    (Atomic.pool_run Atomic.double_impl Examples.racing_schedule Examples.racing).1 /\
  exists order,
    order ≡ₚ [Scenario.d3_5; Scenario.d2_5] /\
    GaugeCell_double.Get
      (Atomic.cell
         (Atomic.pool_run Atomic.double_impl Examples.racing_schedule Examples.racing).1)
    = foldl Double.add Double.zero order.
Proof.
  assert (Atomic.all_done Atomic.double_impl
            (Atomic.pool_run Atomic.double_impl Examples.racing_schedule Examples.racing).1)
    as Hd.
  { vm_compute. repeat constructor. }
  split; [exact Hd|].
  exact (double_increments_all_added Examples.racing_schedule GaugeCell_double.default
           [[Scenario.d3_5]; [Scenario.d2_5]] Hd).
Defined.


(** *** Examples *)

Lemma Get_idempotent_witness :
  Scenario.a ∈ Gauge.tuples Scenario.served /\
  (Gauge.Get Scenario.a Scenario.served).2 = Scenario.served.
Proof.
  assert (Scenario.a ∈ Gauge.tuples Scenario.served) as Hin.
  { apply (bool_decide_unpack _). by vm_compute. }
  split; [exact Hin|].
  exact (proj1 (@Get_idempotent Z _ Scenario.a Scenario.served) Hin).
Defined.

Lemma calls_on_distinct_tuples_commute_witness :
  Scenario.a <> Scenario.b /\
  Gauge.run (H0:=Scenario.plain) [Gauge.OSet 10 Scenario.a; Gauge.OIncrement Scenario.b]
    Scenario.requests =
  Gauge.run (H0:=Scenario.plain) [Gauge.OIncrement Scenario.b; Gauge.OSet 10 Scenario.a]
    Scenario.requests.
Proof.
  assert (Scenario.a <> Scenario.b) as Hne by discriminate.
  split; [exact Hne|].
  exact (@calls_on_distinct_tuples_commute Z _ Scenario.plain
           (Gauge.OSet 10 Scenario.a) (Gauge.OIncrement Scenario.b)
           Scenario.a Scenario.b Scenario.requests eq_refl eq_refl Hne).
Defined.

Lemma Collect_complete_witness :
  Gauge.run (H0:=Scenario.plain) Scenario.calls Scenario.requests = Some Scenario.served /\
  length (CollectedMetric.gauges (Gauge.Collect (H0:=Scenario.plain) Scenario.served)) =
    size (Gauge.touched Scenario.calls).
Proof.
  split; [reflexivity|].
  exact (proj1 (proj2 (@Collect_complete Z _ Scenario.plain "/my/requests" ["method"]
                         Scenario.meta Scenario.calls Scenario.served eq_refl))).
Defined.

Lemma accessors_constant_witness :
  Gauge.run (H0:=Scenario.plain) Scenario.calls Scenario.requests = Some Scenario.served /\
  Gauge.metric_name Scenario.served = "/my/requests" /\
  Gauge.field_names Scenario.served = ["method"].
Proof.
  split; [reflexivity|].
  destruct (@accessors_constant Z _ Scenario.plain "/my/requests" ["method"]
              Scenario.meta Scenario.calls Scenario.served eq_refl) as (_ & Hn & Hf & _).
  split; [exact Hn|exact Hf].
Defined.

Lemma int64_values_in_range_witness :
  Forall Gauge_int64.op_in_range Scenario.calls /\
  Int64.in_range (Gauge.Get Scenario.a Scenario.served).1.
Proof.
  assert (Forall Gauge_int64.op_in_range Scenario.calls) as Hops.
  { unfold Scenario.calls. repeat constructor; simpl;
      unfold Int64.in_range, Int64.min_value, Int64.max_value; lia. }
  split; [exact Hops|].
  exact (proj1 (proj2 (@int64_values_in_range Scenario.plain "/my/requests" ["method"]
                         Scenario.meta Scenario.calls Scenario.served Hops eq_refl))
               Scenario.a).
Defined.

Lemma Examples_steps_no_Set :
  Forall (fun op => ~ Gauge_int64.sets Scenario.a op) Examples.steps.
Proof. unfold Examples.steps. repeat constructor; simpl; tauto. Defined.

Lemma Examples_range : Int64.in_range (Gauge.Get Scenario.a Scenario.requests).1.
Proof.
  change (Gauge.Get Scenario.a Scenario.requests).1 with 0.
  unfold Int64.in_range, Int64.min_value, Int64.max_value. lia.
Defined.

Lemma int64_net_value_witness :
  exists g',
    Gauge.run (H0:=Scenario.plain) Examples.steps Scenario.requests = Some g' /\
    (Gauge.Get Scenario.a g').1 = 4.
Proof.
  destruct (@int64_net_value Scenario.plain Scenario.a Examples.steps Scenario.requests
              Examples_steps_no_Set Examples_range) as (g' & Hr & Hv).
  exists g'. split; [exact Hr|]. rewrite Hv. reflexivity.
Defined.

Lemma int64_order_irrelevant_witness :
  Examples.steps ≡ₚ Examples.steps' /\
  exists g1 g2,
    Gauge.run (H0:=Scenario.plain) Examples.steps Scenario.requests = Some g1 /\
    Gauge.run (H0:=Scenario.plain) Examples.steps' Scenario.requests = Some g2 /\
    (Gauge.Get Scenario.a g1).1 = (Gauge.Get Scenario.a g2).1.
Proof.
  assert (Examples.steps ≡ₚ Examples.steps') as Hperm.
  { unfold Examples.steps, Examples.steps'.
    etransitivity; [apply perm_swap|]. apply perm_skip, perm_swap. }
  split; [exact Hperm|]. eexists. eexists.
  split; [reflexivity|]. split; [reflexivity|].
  exact (@int64_order_irrelevant Scenario.plain Scenario.a Examples.steps Examples.steps'
           Scenario.requests _ _ Hperm Examples_steps_no_Set Examples_range eq_refl eq_refl).
Defined.

Lemma double_IncrementBy_opposite_witness :
  Gauge_double.finite Scenario.d3_5 /\
  (Gauge.Get []
     (Gauge.IncrementBy (Double.opp Scenario.d3_5) []
        (Gauge.IncrementBy Scenario.d3_5 [] Scenario.temperature))).1 = Double.zero.
Proof.
  split; [exact I|].
  exact (proj1 (double_IncrementBy_opposite Scenario.d3_5 [] Scenario.temperature I I)).
Defined.

Lemma double_NaN_stays_witness :
  (Gauge.Get [] (Gauge.IncrementBy S754_nan [] Scenario.temperature)).1 = S754_nan /\
  (Gauge.Get []
     (Gauge.IncrementBy Scenario.d3_5 []
        (Gauge.IncrementBy S754_nan [] Scenario.temperature))).1 = S754_nan.
Proof.
  split; [reflexivity|].
  refine (proj2 (@double_NaN_stays Scenario.plain []
                   [Gauge.OIncrementBy Scenario.d3_5 []]
                   (Gauge.IncrementBy S754_nan [] Scenario.temperature) _)
                eq_refl _ eq_refl).
  repeat constructor. simpl. tauto.
Defined.

Lemma double_DecrementBy_fraction_witness :
  Z.pos Examples.half_mantissa < 2 ^ (- Examples.half_exponent) /\
  exists g',
    Gauge.DecrementBy (S754_finite false Examples.half_mantissa Examples.half_exponent) []
      Scenario.temperature = Some g' /\
    (Gauge.Get [] g').1 = Double.zero.
Proof.
  assert (Z.pos Examples.half_mantissa < 2 ^ (- Examples.half_exponent)) as Hm by reflexivity.
  split; [exact Hm|].
  destruct (double_DecrementBy_fraction false Examples.half_mantissa Examples.half_exponent
              [] Scenario.temperature Hm) as (g' & Hd & Hv); [discriminate|].
  exists g'. split; [exact Hd|]. rewrite Hv. reflexivity.
Defined.



Lemma double_IncrementBy_unobstructed_witness :
  Adders.about_to_increment 0 Scenario.d3_5 [] Examples.contended /\
  value_ (Atomic.cell
    (Atomic.pool_run Atomic.double_impl
       ((0%nat, false) :: replicate 2 (0%nat, true) ++ [(0%nat, false)])
       Examples.contended).1) = Scenario.d3_5.
Proof.
  assert (Adders.about_to_increment 0 Scenario.d3_5 [] Examples.contended) as Hi by reflexivity.
  split; [exact Hi|].
  rewrite (double_IncrementBy_unobstructed 0 Scenario.d3_5 [] false 2 Examples.contended Hi).
  reflexivity.
Defined.
